(** * Data browser: permissions, catalogue, pagination and filter validation

    A shallow embedding of the mock database service (class [MockDB]), of
    the shared types ([types.ts]) and of the filter validator
    ([validateWhereClause] in [utils.ts]), with the properties that the
    specification states about them.

    Conventions of the embedding.
    - The module-level tables [MOCK_PERMISSIONS] and [TABLES_DATA] are passed
      explicitly; the only method that writes, [updateData], returns the new
      table store next to its result.
    - The methods are [async] and first wait for a fixed latency; the wait
      changes no value and is left out.
    - A JavaScript [number] that holds an identifier, a page number or a
      length is an integer of [Z].
    - A string is a [string] of the standard library; characters with a code
      below 128 are ASCII, the others stand for characters that have no
      ASCII case mapping and are no word characters of a regular
      expression.
    - Field values are [any] in the source.  The type of field values is a
      parameter of the model, and so are the two built-ins that the filter
      applies to them, [String(val)] and [s.toLowerCase()] (class
      [Builtins]): what is known of them is what the language fixes for
      strings, for exactly held integers and for ASCII text, and nothing is
      assumed of the lower-casing of other characters.  The examples use
      the values and built-ins of the sample tables. *)

From Stdlib Require Import ZArith QArith Qround Ascii String.
From stdpp Require Import base decidable option list sorting gmap strings pretty.

Local Open Scope Z_scope.

(** ** Shared types ([types.ts]) *)

Inductive PermissionLevel := READ | WRITE | ADMIN.

#[global] Instance PermissionLevel_eq_dec : EqDecision PermissionLevel.
Proof. solve_decision. Defined.

Module User.
Record t := mk {
  id : Z;
  email : string;
  is_active : bool;
  group_id : option Z;          (* [group_id?: number] *)
  group_name : option string    (* [group_name?: string] *)
}.
End User.

Module SchemaPermission.
Record t := mk {
  group_id : Z;
  schema_name : string;
  permission : PermissionLevel
}.
End SchemaPermission.

Module TableInfo.
Record t := mk {
  schema_name : string;
  table_name : string;
  full_name : string;
  row_count : Z;
  column_count : Z
}.
End TableInfo.

(** A field value of a row is [any] in the source: the model takes the type
    [value] of field values as a parameter.  A row is a JavaScript object: a
    finite map from column names to values.  (The source types a table as
    [any[]]; every table of the service holds objects.) *)
Abbreviation row value := (gmap string value).

Module QueryResult.
Record t (value : Type) := mk {
  data : list (row value);
  row_count : Z;
  total_rows : Z;
  page : Z;
  page_size : Z;
  total_pages : Z
}.
Arguments mk {value}.
Arguments data {value}.
Arguments row_count {value}.
Arguments total_rows {value}.
Arguments page {value}.
Arguments page_size {value}.
Arguments total_pages {value}.
End QueryResult.

Definition PAGE_SIZE : Z := 50.

(** ** JavaScript built-ins used by the service *)

(** Truthiness of an optional number, as tested by [!user.group_id]:
    [undefined] and [0] are falsy. *)
Definition truthy_number (n : option Z) : bool :=
  match n with
  | None => false
  | Some z => negb (z =? 0)
  end.

(** Truthiness of a string: only the empty string is falsy. *)
Definition truthy_string (s : string) : bool :=
  match s with
  | EmptyString => false
  | String _ _ => true
  end.

(** [s.startsWith(p)] *)
Fixpoint startsWith (s p : string) {struct p} : bool :=
  match p, s with
  | EmptyString, _ => true
  | String _ _, EmptyString => false
  | String b p', String a s' => bool_decide (a = b) && startsWith s' p'
  end.

(** [s.includes(p)] *)
Fixpoint includes (s p : string) : bool :=
  startsWith s p ||
  match s with
  | EmptyString => false
  | String _ s' => includes s' p
  end.

(** [s.split(c)] for a separator of one character. *)
Fixpoint split (c : ascii) (s : string) : list string :=
  match s with
  | EmptyString => [EmptyString]
  | String a s' =>
      if bool_decide (a = c) then EmptyString :: split c s'
      else match split c s' with
           | [] => [String a EmptyString]
           | w :: ws => String a w :: ws
           end
  end.

Definition toUpperCase_char (c : ascii) : ascii :=
  let n := N_of_ascii c in
  if ((97 <=? n) && (n <=? 122))%N then ascii_of_N (n - 32) else c.

Definition toLowerCase_char (c : ascii) : ascii :=
  let n := N_of_ascii c in
  if ((65 <=? n) && (n <=? 90))%N then ascii_of_N (n + 32) else c.

Fixpoint toUpperCase (s : string) : string :=
  match s with
  | EmptyString => EmptyString
  | String a s' => String (toUpperCase_char a) (toUpperCase s')
  end.

(** Lower-casing of ASCII text: [A]-[Z] become [a]-[z], every other
    character is kept. *)
Fixpoint ascii_toLowerCase (s : string) : string :=
  match s with
  | EmptyString => EmptyString
  | String a s' => String (toLowerCase_char a) (ascii_toLowerCase s')
  end.

Definition is_ascii_char (c : ascii) : bool := (N_of_ascii c <? 128)%N.

Fixpoint is_ascii (s : string) : bool :=
  match s with
  | EmptyString => true
  | String a s' => is_ascii_char a && is_ascii s'
  end.

(** The integers that a JavaScript number holds exactly. *)
Definition MAX_SAFE_INTEGER : Z := 9007199254740991.

Definition safe_integer (n : Z) : Prop :=
  Is_true (Z.abs n <=? MAX_SAFE_INTEGER).

(** Field values, and the two built-ins that the filter of [getData] applies
    to them and to strings: [String(val)] and [s.toLowerCase()].  What the
    built-ins do to every kind of value and to every character (the
    number-to-string conversion, the Unicode case tables) is defined by the
    language, not by the repository, so the service is modelled over any
    type of values and any pair of functions with these properties of the
    language:
    - strings and exactly held integers are values, [String] of a string is
      the string itself and [String] of such an integer is its decimal
      digits, with a minus sign when it is negative;
    - on ASCII text [toLowerCase] is the ASCII lower-casing, and it never
      yields the empty string for a string that is not empty.
    [String_] is total: a value whose conversion throws (an object without
    a usable [toString]) is no value of the model. *)
Class Builtins (value : Type) := {
  String_ : value → string;
  toLowerCase : string → string;
  string_value : string → value;
  integer_value : ∀ n : Z, safe_integer n → value;
  String_string : ∀ s, String_ (string_value s) = s;
  String_integer : ∀ n safe, String_ (integer_value n safe) = pretty n;
  toLowerCase_ascii :
    ∀ s, is_ascii s = true → toLowerCase s = ascii_toLowerCase s;
  toLowerCase_nonempty :
    ∀ s, toLowerCase s = EmptyString → s = EmptyString
}.

(** [Object.values(row)] and [Object.keys(row).length]. *)
Definition Object_values {value} (r : row value) : list value := (map_to_list r).*2.
Definition Object_keys_length {value} (r : row value) : Z := Z.of_nat (size r).

(** [arr.slice(start, end)]: a negative bound counts from the end, and both
    bounds are clamped to the length. *)
Definition slice {A} (l : list A) (start end_ : Z) : list A :=
  let len := Z.of_nat (length l) in
  let k := if start <? 0 then Z.max (len + start) 0 else Z.min start len in
  let final := if end_ <? 0 then Z.max (len + end_) 0 else Z.min end_ len in
  take (Z.to_nat (final - k)) (drop (Z.to_nat k) l).

(** [Math.ceil(a / b)], the quotient taken exactly. *)
Definition Math_ceil_div (a b : Z) : Z :=
  Qceiling (Qdiv (inject_Z a) (inject_Z b)).

(** [Array.from(new Set(l))]: a set keeps the first occurrence of each
    element, in insertion order. *)
Fixpoint Set_add_all (seen l : list string) : list string :=
  match l with
  | [] => seen
  | x :: l' =>
      if bool_decide (x ∈ seen) then Set_add_all seen l'
      else Set_add_all (seen ++ [x]) l'
  end.

Definition Array_from_Set (l : list string) : list string := Set_add_all [] l.

(** [arr.sort()] on strings: ascending by character codes.  The order is
    total and two strings that compare equal are the same string, so the
    result does not depend on the algorithm. *)
Definition Array_sort (l : list string) : list string := merge_sort String.le l.

(** *** Regular expressions of the form built in [validateWhereClause]

    The pattern [\bKEYWORD\b] is a sequence of atoms: the assertion [\b] and
    literal characters.  [test] searches for a match from every position of
    the input, from left to right. *)
Inductive re_atom :=
  | WordBoundary
  | Literal (c : ascii).

Definition is_word_char (c : ascii) : bool :=
  let n := N_of_ascii c in
  ((48 <=? n) && (n <=? 57) || (65 <=? n) && (n <=? 90)
   || (97 <=? n) && (n <=? 122) || (n =? 95))%N.

Definition is_word (c : option ascii) : bool :=
  match c with
  | Some a => is_word_char a
  | None => false
  end.

Definition first_char (s : string) : option ascii :=
  match s with
  | EmptyString => None
  | String a _ => Some a
  end.

(** Comparison of a pattern character with an input character; with the flag
    [i] both are canonicalised to upper case. *)
Definition char_matches (ignoreCase : bool) (c a : ascii) : bool :=
  if ignoreCase then bool_decide (toUpperCase_char c = toUpperCase_char a)
  else bool_decide (c = a).

(** [match_atoms i atoms prev s]: the atoms match a prefix of [s], where
    [prev] is the input character before [s], if any. *)
Fixpoint match_atoms (ignoreCase : bool) (atoms : list re_atom)
    (prev : option ascii) (s : string) : bool :=
  match atoms with
  | [] => true
  | WordBoundary :: atoms' =>
      xorb (is_word prev) (is_word (first_char s))
      && match_atoms ignoreCase atoms' prev s
  | Literal c :: atoms' =>
      match s with
      | EmptyString => false
      | String a s' =>
          char_matches ignoreCase c a && match_atoms ignoreCase atoms' (Some a) s'
      end
  end.

Fixpoint search_atoms (ignoreCase : bool) (atoms : list re_atom)
    (prev : option ascii) (s : string) : bool :=
  match_atoms ignoreCase atoms prev s ||
  match s with
  | EmptyString => false
  | String a s' => search_atoms ignoreCase atoms (Some a) s'
  end.

Definition RegExp_test (atoms : list re_atom) (ignoreCase : bool) (s : string) : bool :=
  search_atoms ignoreCase atoms None s.

(** The atoms of [new RegExp(`\\b${keyword}\\b`, 'i')]; the keywords hold
    letters only, so every character of the keyword is a literal. *)
Definition word_regex (keyword : string) : list re_atom :=
  WordBoundary :: (Literal <$> list_ascii_of_string keyword) ++ [WordBoundary].

(** ** The filter validator ([utils.ts]) *)

Definition FORBIDDEN_SQL_KEYWORDS : list string :=
  ["DELETE"; "UPDATE"; "INSERT"; "DROP";
   "ALTER"; "EXEC"; "EXECUTE"; "CREATE"; "TRUNCATE"].

Definition SQL_COMMENT_PATTERNS : list string := [";"; "--"; "/*"].

Module Validation.
Record t := mk {
  isValid : bool;
  error : option string
}.
End Validation.

(** The two loops return at the first pattern, then at the first keyword,
    that is found.  The source also computes [clause.toUpperCase()] into
    [upperClause] and never reads it. *)
Definition validateWhereClause (clause : string) : Validation.t :=
  if negb (truthy_string clause) then Validation.mk true None
  else
    match List.find (fun pattern => includes clause pattern) SQL_COMMENT_PATTERNS with
    | Some pattern =>
        Validation.mk false
          (Some ("SQL Injection attempt detected: comment pattern '" +:+ pattern +:+ "'"))
    | None =>
        match List.find (fun keyword => RegExp_test (word_regex keyword) true clause)
                FORBIDDEN_SQL_KEYWORDS with
        | Some _ => Validation.mk false (Some "Forbidden SQL keyword detected.")
        | None => Validation.mk true None
        end
    end.

(** ** The permission table, the write check and the schema list *)

Definition MOCK_PERMISSIONS : list SchemaPermission.t :=
  [ SchemaPermission.mk 1 "public" WRITE;
    SchemaPermission.mk 1 "sales" WRITE;
    SchemaPermission.mk 1 "hr" WRITE;
    SchemaPermission.mk 2 "public" READ;
    SchemaPermission.mk 2 "sales" READ;
    SchemaPermission.mk 3 "public" READ ].

(** [p.group_id === user.group_id] *)
Definition same_group (user : User.t) (p : SchemaPermission.t) : bool :=
  bool_decide (Some (SchemaPermission.group_id p) = User.group_id user).

(** The predicate handed to [MOCK_PERMISSIONS.find] in [hasWritePermission]:
    [p.group_id === user.group_id && p.schema_name === schemaName]. *)
Definition perm_matches (user : User.t) (schemaName : string)
    (p : SchemaPermission.t) : bool :=
  same_group user p && bool_decide (SchemaPermission.schema_name p = schemaName).

Definition hasWritePermission (perms : list SchemaPermission.t)
    (user : User.t) (schemaName : string) : bool :=
  if negb (truthy_number (User.group_id user)) then false
  else
    let perm := List.find (perm_matches user schemaName) perms in
    match perm with
    | Some p =>
        bool_decide (SchemaPermission.permission p = WRITE)
        || bool_decide (SchemaPermission.permission p = ADMIN)
    | None => false   (* [undefined === 'write'] is false *)
    end.

Definition getAccessibleSchemas (perms : list SchemaPermission.t)
    (user : User.t) : list string :=
  if negb (truthy_number (User.group_id user)) then []
  else
    let perms' := List.filter (same_group user) perms in
    let schemas := Array_from_Set (SchemaPermission.schema_name <$> perms') in
    Array_sort schemas.

(** ** The table store ([TABLES_DATA])

    An object whose keys are ["schema.table"] strings; a key holds a dot, so
    it is no array index and the object lists its keys in insertion order.
    The store is an association list in that order; reading takes the first
    entry of a key, writing replaces it in place or appends a new entry. *)
Abbreviation store value := (list (string * list (row value))).

Definition tables_get {value} (tables : store value) (key : string)
    : option (list (row value)) :=
  snd <$> List.find (fun kv => bool_decide (kv.1 = key)) tables.

Fixpoint tables_set {value} (tables : store value) (key : string)
    (v : list (row value)) : store value :=
  match tables with
  | [] => [(key, v)]
  | (k, w) :: tables' =>
      if bool_decide (k = key) then (key, v) :: tables'
      else (k, w) :: tables_set tables' key v
  end.

Definition Object_keys {value} (tables : store value) : list string := tables.*1.

(** [TABLES_DATA[fullKey] || []]: an array is truthy, also when empty. *)
Definition table_rows {value} (tables : store value) (fullKey : string)
    : list (row value) :=
  default [] (tables_get tables fullKey).

Definition fullKey_of (schemaName tableName : string) : string :=
  schemaName +:+ "." +:+ tableName.

(** [key.split('.')[1]] is [None] where JavaScript gives [undefined]. *)
Definition getTables {value} (tables : store value) (schemaName : string)
    : list (option string) :=
  (fun key => split "." key !! 1%nat)
    <$> List.filter (fun key => startsWith key (schemaName +:+ ".")) (Object_keys tables).

Definition getTableInfo {value} (tables : store value)
    (schemaName tableName : string) : TableInfo.t :=
  let fullKey := fullKey_of schemaName tableName in
  let data := table_rows tables fullKey in
  TableInfo.mk schemaName tableName fullKey
    (Z.of_nat (length data))
    (match data with
     | r :: _ => Object_keys_length r
     | [] => 0
     end).

(** The filter step of [getData]; [whereClause] is an optional argument. *)
Definition filterRows {value} `{!Builtins value} (whereClause : option string)
    (data : list (row value)) : list (row value) :=
  match whereClause with
  | Some clause =>
      if truthy_string clause then
        let lowerClause := toLowerCase clause in
        List.filter
          (fun r => existsb (fun val => includes (toLowerCase (String_ val)) lowerClause)
                      (Object_values r))
          data
      else data
  | None => data
  end.

Definition getData {value} `{!Builtins value} (tables : store value)
    (schemaName tableName : string) (page : Z) (whereClause : option string)
    : QueryResult.t value :=
  let fullKey := fullKey_of schemaName tableName in
  let data := filterRows whereClause (table_rows tables fullKey) in
  let total_rows := Z.of_nat (length data) in
  let total_pages := Math_ceil_div total_rows PAGE_SIZE in
  let start := (page - 1) * PAGE_SIZE in
  let end_ := start + PAGE_SIZE in
  let slicedData := slice data start end_ in
  QueryResult.mk slicedData (Z.of_nat (length slicedData))
    total_rows page PAGE_SIZE total_pages.

Definition updateData {value} (tables : store value)
    (schemaName tableName : string) (newData : list (row value))
    : store value * bool :=
  let fullKey := fullKey_of schemaName tableName in
  (tables_set tables fullKey newData, true).

(** ** Sample data

    The users of [MOCK_USERS], a user and a permission table for a group
    with identifier 0, and a small table store. *)

Definition admin_user : User.t :=
  User.mk 1 "admin@example.com" true (Some 1) (Some "Admins").
Definition analyst_user : User.t :=
  User.mk 2 "analyst@example.com" true (Some 2) (Some "Analysts").
Definition viewer_user : User.t :=
  User.mk 3 "user@example.com" true (Some 3) (Some "Viewers").
Definition ungrouped_user : User.t :=
  User.mk 4 "new@example.com" true None None.

Definition group_zero_user : User.t :=
  User.mk 5 "zero@example.com" true (Some 0) None.
Definition group_zero_perms : list SchemaPermission.t :=
  [ SchemaPermission.mk 0 "public" WRITE; SchemaPermission.mk 0 "sales" READ ].

(** The field values of the sample tables: strings, integers that a
    JavaScript number holds exactly, booleans, [null] and [undefined].  For
    these [String] gives the string itself, the decimal digits of the
    integer, [true] or [false], [null] and [undefined]. *)
Inductive scalar :=
  | VString (s : string)
  | VNumber (n : Z) (safe : safe_integer n)
  | VBool (b : bool)
  | VNull
  | VUndefined.

Definition scalar_String (val : scalar) : string :=
  match val with
  | VString s => s
  | VNumber n _ => pretty n
  | VBool true => "true"
  | VBool false => "false"
  | VNull => "null"
  | VUndefined => "undefined"
  end.

Lemma ascii_toLowerCase_nonempty (s : string) :
  ascii_toLowerCase s = EmptyString → s = EmptyString.
Proof. by destruct s. Qed.

(** The built-ins of the examples.  The sample tables and the filter texts
    of the examples hold ASCII text only, for which [toLowerCase] is the
    ASCII lower-casing. *)
#[global] Instance scalar_builtins : Builtins scalar := {|
  String_ := scalar_String;
  toLowerCase := ascii_toLowerCase;
  string_value := VString;
  integer_value := VNumber;
  String_string := fun _ => eq_refl;
  String_integer := fun _ _ => eq_refl;
  toLowerCase_ascii := fun s _ => eq_refl;
  toLowerCase_nonempty := ascii_toLowerCase_nonempty
|}.

Definition hr_employees : list (row scalar) :=
  [ {[ "id" := VNumber 1 I; "name" := VString "John Doe";
       "role" := VString "Manager"; "salary" := VNumber 80000 I ]};
    {[ "id" := VNumber 2 I; "name" := VString "Jane Smith";
       "role" := VString "Developer"; "salary" := VNumber 75000 I ]};
    {[ "id" := VNumber 3 I; "name" := VString "Bob Johnson";
       "role" := VString "Designer"; "salary" := VNumber 70000 I ]} ].

Definition sample_orders : list (row scalar) :=
  [ {[ "order_id" := VNumber 1000 I; "customer" := VString "Customer 0";
       "status" := VString "CANCELLED" ]};
    {[ "order_id" := VNumber 1001 I; "customer" := VString "Customer 1";
       "status" := VString "COMPLETED" ]} ].

Definition sample_tables : store scalar :=
  [ ("sales.orders", sample_orders); ("hr.employees", hr_employees) ].

(** ** Vocabulary of the specification

    The properties below are stated with these definitions, which follow the
    wording of the specification and not the code. *)

(** [pat] occurs in [s] as a substring. *)
Definition contains (s pat : string) : Prop :=
  ∃ pre post, s = pre +:+ pat +:+ post.

Fixpoint last_char (s : string) : option ascii :=
  match s with
  | EmptyString => None
  | String a EmptyString => Some a
  | String _ s' => last_char s'
  end.

(** The character before the position that follows [pre], when the
    character before [pre] is [prev]. *)
Definition last_char_or (prev : option ascii) (pre : string) : option ascii :=
  match last_char pre with
  | Some a => Some a
  | None => prev
  end.

(** [kw] occurs in [s] as a whole word, letter case ignored: an occurrence
    that differs from [kw] in letter case only and that has no word character
    (letter, digit or underscore) directly before or after it. *)
Definition contains_word (s kw : string) : Prop :=
  ∃ pre mid post,
    s = pre +:+ mid +:+ post
    ∧ toUpperCase mid = toUpperCase kw
    ∧ is_word (last_char pre) = false
    ∧ is_word (first_char post) = false.

(** The character [c] does not occur in [s]. *)
Fixpoint free_of (c : ascii) (s : string) : Prop :=
  match s with
  | EmptyString => True
  | String a s' => a ≠ c ∧ free_of c s'
  end.

(** [strip_prefix p s] is the rest of [s] after the prefix [p], if [s]
    starts with [p]. *)
Fixpoint strip_prefix (p s : string) : option string :=
  match p, s with
  | EmptyString, _ => Some s
  | String _ _, EmptyString => None
  | String b p', String a s' =>
      if bool_decide (a = b) then strip_prefix p' s' else None
  end.

(** [Kept P l l']: [l'] is [l] with exactly the elements that satisfy [P]
    kept, one by one and in place. *)
Inductive Kept {A} (P : A → Prop) : list A → list A → Prop :=
  | Kept_nil : Kept P [] []
  | Kept_keep x l l' : P x → Kept P l l' → Kept P (x :: l) (x :: l')
  | Kept_drop x l l' : ¬ P x → Kept P l l' → Kept P (x :: l) l'.

(** Some field of the row, as lower-case text, contains the lower-cased
    filter text. *)
Definition row_matches {value} `{!Builtins value} (clause : string)
    (r : row value) : Prop :=
  ∃ k v, r !! k = Some v
         ∧ contains (toLowerCase (value := value) (String_ v))
              (toLowerCase (value := value) clause).

(** [p] occurs in [s] when the case of the letters [A]-[Z] and [a]-[z] is
    ignored. *)
Definition contains_ignoring_case (s p : string) : Prop :=
  contains (toUpperCase s) (toUpperCase p).

(** [p] is the first record of [perms], in storage order, for the group [g]
    and the schema [schemaName]. *)
Definition first_record_for (perms : list SchemaPermission.t) (g : Z)
    (schemaName : string) (p : SchemaPermission.t) : Prop :=
  ∃ before after,
    perms = before ++ p :: after
    ∧ SchemaPermission.group_id p = g
    ∧ SchemaPermission.schema_name p = schemaName
    ∧ Forall (fun q => ¬ (SchemaPermission.group_id q = g
                          ∧ SchemaPermission.schema_name q = schemaName)) before.

(** Lexicographic order on strings by character codes. *)
Inductive lex_le : string → string → Prop :=
  | lex_le_empty s : lex_le EmptyString s
  | lex_le_lt a b s t : (N_of_ascii a < N_of_ascii b)%N → lex_le (String a s) (String b t)
  | lex_le_eq a s t : lex_le s t → lex_le (String a s) (String a t).

(** ** Groups, users and the identity methods of [MockDB]

    [MOCK_USERS] is the one table that [register] extends; it is passed
    explicitly, like the table store. *)

Module Group.
Record t := mk {
  id : Z;
  name : string;
  description : string
}.
End Group.

Definition MOCK_GROUPS : list Group.t :=
  [ Group.mk 1 "Admins" "Full access";
    Group.mk 2 "Analysts" "Read-only access to business data";
    Group.mk 3 "Viewers" "Limited read access" ].

Definition MOCK_USERS : list User.t := [admin_user; analyst_user; viewer_user].

(** The predicate of [MOCK_USERS.find(u => u.email === email)]. *)
Definition has_email (email : string) (u : User.t) : bool :=
  bool_decide (User.email u = email).

(** [login] answers [null] as [None]. *)
Definition login (users : list User.t) (email password : string) : option User.t :=
  match List.find (has_email email) users with
  | Some user => if bool_decide (password = "password") then Some user else None
  | None => None
  end.

(** [register(email, groupId?)]: the second component is the returned
    boolean, the first the user table after the call. *)
Definition register (users : list User.t) (groups : list Group.t)
    (email : string) (groupId : option Z) : list User.t * bool :=
  match List.find (has_email email) users with
  | Some _ => (users, false)
  | None =>
      let group := List.find (fun g => bool_decide (Some (Group.id g) = groupId)) groups in
      (users ++ [User.mk (Z.of_nat (length users) + 1) email true groupId
                   (Group.name <$> group)],
       true)
  end.

Definition getGroups (groups : list Group.t) : list Group.t := groups.

(** ** Regular expressions that are matched against the whole input

    [EMAIL_REGEX] is anchored at both ends, so [test] asks whether the whole
    string belongs to the language of the pattern.  The pattern is built
    from character classes, sequence and repetition; membership is decided
    by derivatives. *)
Inductive regex :=
  | Void
  | Eps
  | Class (f : ascii → bool)
  | Seq (r1 r2 : regex)
  | Alt (r1 r2 : regex)
  | Star (r : regex).

(** [r+] and [r{2,}] *)
Definition Plus (r : regex) : regex := Seq r (Star r).
Definition AtLeast2 (r : regex) : regex := Seq r (Seq r (Star r)).

Fixpoint nullable (r : regex) : bool :=
  match r with
  | Void => false
  | Eps => true
  | Class _ => false
  | Seq r1 r2 => nullable r1 && nullable r2
  | Alt r1 r2 => nullable r1 || nullable r2
  | Star _ => true
  end.

Fixpoint deriv (a : ascii) (r : regex) : regex :=
  match r with
  | Void => Void
  | Eps => Void
  | Class f => if f a then Eps else Void
  | Seq r1 r2 =>
      if nullable r1 then Alt (Seq (deriv a r1) r2) (deriv a r2)
      else Seq (deriv a r1) r2
  | Alt r1 r2 => Alt (deriv a r1) (deriv a r2)
  | Star r => Seq (deriv a r) (Star r)
  end.

Fixpoint regex_test (r : regex) (s : string) : bool :=
  match s with
  | EmptyString => nullable r
  | String a s' => regex_test (deriv a r) s'
  end.

Definition in_range (lo hi : N) (c : ascii) : bool :=
  ((lo <=? N_of_ascii c) && (N_of_ascii c <=? hi))%N.

Definition is_upper_letter (c : ascii) : bool := in_range 65 90 c.
Definition is_lower_letter (c : ascii) : bool := in_range 97 122 c.
Definition is_digit (c : ascii) : bool := in_range 48 57 c.
Definition is_letter (c : ascii) : bool := is_lower_letter c || is_upper_letter c.
Definition is_alnum (c : ascii) : bool := is_letter c || is_digit c.

(** [[a-zA-Z0-9._%+-]] *)
Definition email_local_char (c : ascii) : bool :=
  is_alnum c
  || bool_decide (c = "."%char) || bool_decide (c = "_"%char)
  || bool_decide (c = "%"%char) || bool_decide (c = "+"%char)
  || bool_decide (c = "-"%char).

(** [[a-zA-Z0-9.-]] *)
Definition email_domain_char (c : ascii) : bool :=
  is_alnum c || bool_decide (c = "."%char) || bool_decide (c = "-"%char).

(** [/^[a-zA-Z0-9._%+-]+@[a-zA-Z0-9.-]+\.[a-zA-Z]{2,}$/] *)
Definition EMAIL_REGEX : regex :=
  Seq (Plus (Class email_local_char))
    (Seq (Class (fun c => bool_decide (c = "@"%char)))
       (Seq (Plus (Class email_domain_char))
          (Seq (Class (fun c => bool_decide (c = "."%char)))
             (AtLeast2 (Class is_letter))))).

(** ** The other validators of [utils.ts] *)

Definition validateEmail (email : string) : Validation.t :=
  if negb (truthy_string email) then
    Validation.mk false (Some "Email cannot be empty.")
  else if negb (regex_test EMAIL_REGEX email) then
    Validation.mk false (Some "Invalid email format.")
  else Validation.mk true None.

Definition validatePassword (password : string) : Validation.t :=
  if negb (truthy_string password) then
    Validation.mk false (Some "Password cannot be empty.")
  else if Z.of_nat (String.length password) <? 8 then
    Validation.mk false (Some "Password must be at least 8 characters.")
  else Validation.mk true None.

(** [/[...]/.test(s)] for a pattern that is one character class: some
    character of [s] is in the class. *)
Fixpoint test_class (f : ascii → bool) (s : string) : bool :=
  match s with
  | EmptyString => false
  | String a s' => f a || test_class f s'
  end.

Module Strength.
Record t := mk {
  score : Z;
  label : string;
  color : string
}.
End Strength.

(** The four increments of [getPasswordStrength], in source order. *)
Definition strength_score (password : string) : Z :=
  (if 8 <=? Z.of_nat (String.length password) then 1 else 0)
  + (if test_class is_upper_letter password then 1 else 0)
  + (if test_class is_digit password then 1 else 0)
  + (if test_class (fun c => negb (is_alnum c)) password then 1 else 0).

Definition getPasswordStrength (password : string) : Strength.t :=
  if negb (truthy_string password) then Strength.mk 0 "Weak" "bg-gray-200"
  else
    let score := strength_score password in
    if score <? 2 then Strength.mk score "Weak" "bg-red-500"
    else if score <? 4 then Strength.mk score "Medium" "bg-yellow-500"
    else Strength.mk score "Strong" "bg-green-500".

(** ** The registration form ([RegisterForm.handleSubmit])

    The form checks the e-mail address, the password and its confirmation,
    and only then calls [register] with the e-mail address and the selected
    group; the password is not passed on.  The result is the user table
    after the submission and the message shown ([None] on success). *)
Definition RegisterForm_submit (users : list User.t) (groups : list Group.t)
    (email password confirm : string) (groupId : Z) : list User.t * option string :=
  let emailValidation := validateEmail email in
  if negb (Validation.isValid emailValidation) then
    (users, Validation.error emailValidation)
  else
    let pwdValidation := validatePassword password in
    if negb (Validation.isValid pwdValidation) then
      (users, Validation.error pwdValidation)
    else if negb (bool_decide (password = confirm)) then
      (users, Some "Passwords do not match.")
    else
      let '(users', registered) := register users groups email (Some groupId) in
      if registered then (users', None)
      else (users', Some "Email already registered.").

(** ** The data browser component ([DataBrowser])

    The state variables that the filter and page handlers read and write.
    An event is handled on the state that was rendered; a button that is
    disabled or not rendered handles nothing.  [Loaded] is the completion of
    [loadData] with a result of [getData]. *)
Module DataBrowser.
Record state (value : Type) := mk {
  filter : string;
  appliedFilter : string;
  page : Z;
  error : option string;
  data : option (QueryResult.t value)
}.
Arguments mk {value}.
Arguments filter {value}.
Arguments appliedFilter {value}.
Arguments page {value}.
Arguments error {value}.
Arguments data {value}.

Inductive event (value : Type) :=
  | ChangeFilter (text : string)   (* [onChange] of the filter input *)
  | ApplyFilter                    (* [handleApplyFilter] *)
  | ClearFilter                    (* [handleClearFilter] *)
  | TableChanged                   (* the effect on [schemaName, tableName] *)
  | Loaded (result : QueryResult.t value)
  | FirstPage
  | PrevPage
  | NextPage
  | LastPage.
Arguments ChangeFilter {value}.
Arguments ApplyFilter {value}.
Arguments ClearFilter {value}.
Arguments TableChanged {value}.
Arguments Loaded {value}.
Arguments FirstPage {value}.
Arguments PrevPage {value}.
Arguments NextPage {value}.
Arguments LastPage {value}.
End DataBrowser.

Definition DataBrowser_init {value} : DataBrowser.state value :=
  DataBrowser.mk "" "" 1 None None.

Definition handleApplyFilter {value} (st : DataBrowser.state value)
    : DataBrowser.state value :=
  let validation := validateWhereClause (DataBrowser.filter st) in
  if negb (Validation.isValid validation) then
    DataBrowser.mk (DataBrowser.filter st) (DataBrowser.appliedFilter st)
      (DataBrowser.page st) (Validation.error validation) (DataBrowser.data st)
  else
    DataBrowser.mk (DataBrowser.filter st) (DataBrowser.filter st) 1 None
      (DataBrowser.data st).

Definition handleClearFilter {value} (st : DataBrowser.state value)
    : DataBrowser.state value :=
  DataBrowser.mk "" "" 1 None (DataBrowser.data st).

(** The pagination bar is rendered when [data && data.total_rows > 0]. *)
Definition pagination_shown {value} (st : DataBrowser.state value)
    : option (QueryResult.t value) :=
  match DataBrowser.data st with
  | Some d => if 0 <? QueryResult.total_rows d then Some d else None
  | None => None
  end.

Definition set_page {value} (st : DataBrowser.state value) (p : Z)
    : DataBrowser.state value :=
  DataBrowser.mk (DataBrowser.filter st) (DataBrowser.appliedFilter st) p
    (DataBrowser.error st) (DataBrowser.data st).

Definition DataBrowser_step {value} (st : DataBrowser.state value)
    (e : DataBrowser.event value) : DataBrowser.state value :=
  match e with
  | DataBrowser.ChangeFilter text =>
      DataBrowser.mk text (DataBrowser.appliedFilter st) (DataBrowser.page st)
        (DataBrowser.error st) (DataBrowser.data st)
  | DataBrowser.ApplyFilter => handleApplyFilter st
  | DataBrowser.ClearFilter => handleClearFilter st
  | DataBrowser.TableChanged =>
      DataBrowser.mk "" "" 1 (DataBrowser.error st) (DataBrowser.data st)
  | DataBrowser.Loaded result =>
      DataBrowser.mk (DataBrowser.filter st) (DataBrowser.appliedFilter st)
        (DataBrowser.page st) None (Some result)
  | DataBrowser.FirstPage =>
      match pagination_shown st with
      | Some _ => if DataBrowser.page st =? 1 then st else set_page st 1
      | None => st
      end
  | DataBrowser.PrevPage =>
      match pagination_shown st with
      | Some _ =>
          if DataBrowser.page st =? 1 then st else set_page st (DataBrowser.page st - 1)
      | None => st
      end
  | DataBrowser.NextPage =>
      match pagination_shown st with
      | Some d =>
          if QueryResult.total_pages d <=? DataBrowser.page st then st
          else set_page st (DataBrowser.page st + 1)
      | None => st
      end
  | DataBrowser.LastPage =>
      match pagination_shown st with
      | Some d =>
          if QueryResult.total_pages d <=? DataBrowser.page st then st
          else set_page st (QueryResult.total_pages d)
      | None => st
      end
  end.

Definition DataBrowser_run {value} (events : list (DataBrowser.event value))
    : DataBrowser.state value :=
  fold_left DataBrowser_step events DataBrowser_init.

(** The call that [loadData] makes from a state:
    [db.getData(schemaName, tableName, page, appliedFilter)]. *)
Definition loadData_query {value} `{!Builtins value} (tables : store value)
    (schemaName tableName : string) (st : DataBrowser.state value)
    : QueryResult.t value :=
  getData tables schemaName tableName (DataBrowser.page st)
    (Some (DataBrowser.appliedFilter st)).

(** The range of the line "Showing [from] to [to] of [total_rows] entries". *)
Definition showing_from (page : Z) : Z := (page - 1) * PAGE_SIZE + 1.
Definition showing_to {value} (page : Z) (d : QueryResult.t value) : Z :=
  Z.min (page * PAGE_SIZE) (QueryResult.total_rows d).

(** ** Vocabulary for the further properties *)

(** The language of a regular expression. *)
Inductive Matches : regex → string → Prop :=
  | Matches_Eps : Matches Eps ""
  | Matches_Class f a : f a = true → Matches (Class f) (String a "")
  | Matches_Seq r1 r2 s1 s2 :
      Matches r1 s1 → Matches r2 s2 → Matches (Seq r1 r2) (s1 +:+ s2)
  | Matches_Alt_l r1 r2 s : Matches r1 s → Matches (Alt r1 r2) s
  | Matches_Alt_r r1 r2 s : Matches r2 s → Matches (Alt r1 r2) s
  | Matches_Star_nil r : Matches (Star r) ""
  | Matches_Star_cons r s1 s2 :
      Matches r s1 → Matches (Star r) s2 → Matches (Star r) (s1 +:+ s2).

(** Every character of [s] is in the class [f]. *)
Fixpoint all_chars (f : ascii → bool) (s : string) : Prop :=
  match s with
  | EmptyString => True
  | String a s' => f a = true ∧ all_chars f s'
  end.

(** Some character of [s] is in the class [f]. *)
Definition some_char (f : ascii → bool) (s : string) : Prop :=
  ∃ pre a post, s = pre +:+ String a post ∧ f a = true.

(** The number of occurrences of the character [c] in [s]. *)
Fixpoint count_char (c : ascii) (s : string) : nat :=
  match s with
  | EmptyString => 0%nat
  | String a s' => ((if bool_decide (a = c) then 1 else 0) + count_char c s')%nat
  end.

(** The shape that [EMAIL_REGEX] describes: local part, [@], domain, a dot
    and a top-level domain of two letters or more. *)
Definition email_shape (email : string) : Prop :=
  ∃ local domain tld,
    email = local +:+ "@" +:+ domain +:+ "." +:+ tld
    ∧ local ≠ "" ∧ all_chars email_local_char local
    ∧ domain ≠ "" ∧ all_chars email_domain_char domain
    ∧ (2 ≤ String.length tld)%nat ∧ all_chars is_letter tld.

(** What every reachable state of the data browser satisfies. *)
Definition DataBrowser_ok {value} (st : DataBrowser.state value) : Prop :=
  1 ≤ DataBrowser.page st
  ∧ Validation.isValid (validateWhereClause (DataBrowser.appliedFilter st)) = true.

(** The user table has no two users with one e-mail address, and the user
    at position [i] has the identifier [i + 1]. *)
Definition users_wf (users : list User.t) : Prop :=
  NoDup (User.email <$> users)
  ∧ ∀ (i : nat) u, users !! i = Some u → User.id u = Z.of_nat i + 1.

(** A table of 120 rows, as [public.users_audit] has, with the columns
    [action] and [user_email]. *)
Definition users_audit : list (row scalar) :=
  (fun i : nat =>
     {[ "action" := VString (if Nat.even i then "LOGIN" else "LOGOUT");
        "user_email" := VString ("user" +:+ pretty (i `mod` 10)%nat +:+ "@example.com") ]})
    <$> seq 0 120.

Definition audit_tables : store scalar := [ ("public.users_audit", users_audit) ].

(** * Properties

    The properties that mention rows hold for every type [value] of field
    values, and those that mention the filter for every implementation of
    the built-ins. *)

(** ** The write check *)

Section Permissions.
Implicit Types (perms : list SchemaPermission.t) (user : User.t)
  (p q : SchemaPermission.t) (g : Z) (schemaName : string).

Lemma truthy_number_Some g : truthy_number (Some g) = true ↔ g ≠ 0.
Proof. simpl. rewrite negb_true_iff, Z.eqb_neq. done. Qed.

Lemma same_group_true user g p :
  User.group_id user = Some g →
  same_group user p = true ↔ SchemaPermission.group_id p = g.
Proof.
  intros Hg. unfold same_group. rewrite Hg, bool_decide_eq_true.
  split; [by intros [= ->] | by intros ->].
Qed.

Lemma perm_matches_true user g schemaName p :
  User.group_id user = Some g →
  perm_matches user schemaName p = true
  ↔ SchemaPermission.group_id p = g ∧ SchemaPermission.schema_name p = schemaName.
Proof.
  intros Hg. unfold perm_matches.
  rewrite andb_true_iff, (same_group_true _ g) by done.
  by rewrite bool_decide_eq_true.
Qed.

(** [Array.prototype.find] returns the first record in storage order. *)
Lemma find_first_record perms user g schemaName p :
  User.group_id user = Some g →
  List.find (perm_matches user schemaName) perms = Some p
  ↔ first_record_for perms g schemaName p.
Proof.
  intros Hg. induction perms as [|q perms IH]; simpl.
  - split; [done|]. intros (before & after & Heq & _).
    by destruct before.
  - destruct (perm_matches user schemaName q) eqn:Hq.
    + apply (perm_matches_true _ g) in Hq as [Hq1 Hq2]; [|done].
      split.
      * intros [= ->]. exists [], perms. repeat split; auto.
      * intros (before & after & Heq & _ & _ & Hbefore).
        destruct before as [|q' before]; simplify_eq/=; [done|].
        apply Forall_cons in Hbefore as [Hno _]. by destruct Hno.
    + assert (¬ (SchemaPermission.group_id q = g
                 ∧ SchemaPermission.schema_name q = schemaName)) as Hno.
      { rewrite <-(perm_matches_true user) by done. by rewrite Hq. }
      rewrite IH. split.
      * intros (before & after & -> & ? & ? & ?).
        exists (q :: before), after. repeat split; auto.
      * intros (before & after & Heq & Hg' & Hs & Hbefore).
        destruct before as [|q' before]; simplify_eq/=; [by destruct Hno|].
        apply Forall_cons in Hbefore as [_ Hbefore].
        by exists before, after.
Qed.

Lemma find_no_record perms user g schemaName :
  User.group_id user = Some g →
  List.find (perm_matches user schemaName) perms = None
  ↔ ∀ p, p ∈ perms →
      ¬ (SchemaPermission.group_id p = g
         ∧ SchemaPermission.schema_name p = schemaName).
Proof.
  intros Hg. split.
  - intros Hnone p Hp%list_elem_of_In.
    rewrite <-(perm_matches_true user) by done.
    by rewrite (find_none _ _ Hnone p Hp).
  - intros Hall. destruct (List.find _ perms) as [p|] eqn:Hfind; [|done].
    apply find_some in Hfind as [Hp%list_elem_of_In Hm].
    apply (perm_matches_true _ g) in Hm; [|done]. by destruct (Hall p Hp).
Qed.

Lemma first_record_unique perms g schemaName p q :
  first_record_for perms g schemaName p →
  first_record_for perms g schemaName q → p = q.
Proof.
  set (user := User.mk 0 "" true (Some g) None).
  intros Hp Hq.
  apply (find_first_record perms user) in Hp, Hq; [|done..]. congruence.
Qed.

Lemma hasWritePermission_falsy perms user schemaName :
  truthy_number (User.group_id user) = false →
  hasWritePermission perms user schemaName = false.
Proof. intros H. unfold hasWritePermission. by rewrite H. Qed.

Lemma hasWritePermission_found perms user g schemaName p :
  User.group_id user = Some g → g ≠ 0 →
  first_record_for perms g schemaName p →
  hasWritePermission perms user schemaName
  = bool_decide (SchemaPermission.permission p = WRITE
                 ∨ SchemaPermission.permission p = ADMIN).
Proof.
  intros Hg Hg0 Hp. unfold hasWritePermission.
  rewrite Hg. apply truthy_number_Some in Hg0 as ->. simpl.
  apply (find_first_record perms user) in Hp as ->; [|done].
  by destruct (SchemaPermission.permission p).
Qed.

Lemma hasWritePermission_no_record perms user g schemaName :
  User.group_id user = Some g →
  (∀ p, p ∈ perms →
     ¬ (SchemaPermission.group_id p = g
        ∧ SchemaPermission.schema_name p = schemaName)) →
  hasWritePermission perms user schemaName = false.
Proof.
  intros Hg Hno. unfold hasWritePermission.
  destruct (negb _); [done|]. simpl.
  by apply (find_no_record perms user) in Hno as ->.
Qed.

(** C2, as the code has it.  [hasWritePermission] is true iff the user's
    [group_id] is present and not zero and the first permission record, in
    storage order, for that group and the schema has level WRITE or ADMIN.
    It is false when the user has no [group_id], when the [group_id] is
    zero, when no record matches, and when the first matching record has
    level READ. *)
Theorem hasWritePermission_spec perms user schemaName :
  (hasWritePermission perms user schemaName = true
   ↔ ∃ g p, User.group_id user = Some g ∧ g ≠ 0
            ∧ first_record_for perms g schemaName p
            ∧ (SchemaPermission.permission p = WRITE
               ∨ SchemaPermission.permission p = ADMIN))
  ∧ (User.group_id user = None →
     hasWritePermission perms user schemaName = false)
  ∧ (User.group_id user = Some 0 →
     hasWritePermission perms user schemaName = false)
  ∧ (∀ g, User.group_id user = Some g →
       (∀ p, p ∈ perms →
          ¬ (SchemaPermission.group_id p = g
             ∧ SchemaPermission.schema_name p = schemaName)) →
       hasWritePermission perms user schemaName = false)
  ∧ (∀ g p, User.group_id user = Some g →
       first_record_for perms g schemaName p →
       SchemaPermission.permission p = READ →
       hasWritePermission perms user schemaName = false).
Proof.
  split_and!.
  - split.
    + unfold hasWritePermission.
      destruct (User.group_id user) as [g|] eqn:Hg; [|done].
      destruct (truthy_number (Some g)) eqn:Ht; [|done].
      apply truthy_number_Some in Ht. simpl.
      destruct (List.find _ perms) as [p|] eqn:Hfind; [|done].
      apply (find_first_record _ _ g) in Hfind; [|done].
      rewrite orb_true_iff, !bool_decide_eq_true. intros Hlevel.
      by exists g, p.
    + intros (g & p & Hg & Hg0 & Hp & Hlevel).
      rewrite (hasWritePermission_found _ _ g _ p) by done.
      by apply bool_decide_eq_true.
  - intros Hg. apply hasWritePermission_falsy. by rewrite Hg.
  - intros Hg. apply hasWritePermission_falsy. by rewrite Hg.
  - intros g. apply hasWritePermission_no_record.
  - intros g p Hg Hp Hread.
    destruct (decide (g = 0)) as [->|Hg0].
    + apply hasWritePermission_falsy. by rewrite Hg.
    + rewrite (hasWritePermission_found _ _ g _ p) by done.
      apply bool_decide_eq_false. rewrite Hread. by intros [|].
Qed.
End Permissions.

(** ** The list of accessible schemas *)

Section AccessibleSchemas.
Implicit Types (perms : list SchemaPermission.t) (user : User.t) (g : Z)
  (seen l : list string).

Lemma Set_add_all_elem_of seen l x :
  x ∈ Set_add_all seen l ↔ x ∈ seen ∨ x ∈ l.
Proof.
  revert seen. induction l as [|y l IH]; intros seen; simpl.
  - rewrite elem_of_nil. tauto.
  - rewrite (elem_of_cons l x y).
    case_bool_decide as Hy; rewrite IH.
    + split; [tauto|]. intros [?|[->|?]]; auto.
    + rewrite elem_of_app, list_elem_of_singleton. tauto.
Qed.

Lemma Set_add_all_NoDup seen l : NoDup seen → NoDup (Set_add_all seen l).
Proof.
  revert seen. induction l as [|y l IH]; intros seen Hseen; simpl; [done|].
  case_bool_decide as Hy; apply IH; [done|].
  apply NoDup_app. split_and!; [done| |apply NoDup_singleton].
  intros x Hx ->%list_elem_of_singleton. done.
Qed.

(** A set lists its elements in the order of their first insertion. *)
Lemma Set_add_all_prefix seen l : seen `prefix_of` Set_add_all seen l.
Proof.
  revert seen. induction l as [|y l IH]; intros seen; simpl; [done|].
  case_bool_decide; [done|].
  etrans; [|apply IH]. by apply prefix_app_r.
Qed.

Lemma Array_sort_elem_of l x : x ∈ Array_sort l ↔ x ∈ l.
Proof. unfold Array_sort. by rewrite merge_sort_Permutation. Qed.

Lemma Array_sort_NoDup l : NoDup l → NoDup (Array_sort l).
Proof. unfold Array_sort. by rewrite merge_sort_Permutation. Qed.

Lemma String_le_lex s t : String.le s t ↔ lex_le s t.
Proof.
  unfold String.le, String.leb.
  revert t. induction s as [|a s IH]; intros [|b t]; simpl.
  - split; [constructor|done].
  - split; [constructor|done].
  - split; [done|]. inversion 1.
  - unfold Ascii.compare. destruct (N.compare_spec (N_of_ascii a) (N_of_ascii b)) as [Heq|Hlt|Hgt].
    + assert (a = b) as ->.
      { by rewrite <-(ascii_N_embedding a), <-(ascii_N_embedding b), Heq. }
      rewrite IH. split; [by constructor|].
      inversion 1; subst; [lia|done].
    + split; [by constructor|done].
    + split; [done|]. inversion 1; subst; lia.
Qed.

Lemma Array_sort_sorted l : StronglySorted lex_le (Array_sort l).
Proof.
  unfold Array_sort.
  induction (StronglySorted_merge_sort String.le l) as [|s l' _ IH Hs];
    constructor; [done|].
  eapply Forall_impl; [done|]. intros t. apply String_le_lex.
Qed.

Lemma getAccessibleSchemas_falsy perms user :
  truthy_number (User.group_id user) = false →
  getAccessibleSchemas perms user = [].
Proof. intros H. unfold getAccessibleSchemas. by rewrite H. Qed.

Lemma getAccessibleSchemas_elem_of perms user g s :
  User.group_id user = Some g → g ≠ 0 →
  s ∈ getAccessibleSchemas perms user
  ↔ ∃ p, p ∈ perms ∧ SchemaPermission.group_id p = g
         ∧ SchemaPermission.schema_name p = s.
Proof.
  intros Hg Hg0. unfold getAccessibleSchemas.
  rewrite Hg. apply truthy_number_Some in Hg0 as ->. simpl.
  rewrite Array_sort_elem_of. unfold Array_from_Set.
  rewrite Set_add_all_elem_of, elem_of_nil, list_elem_of_fmap.
  split.
  - intros [[]|(p & -> & Hp)].
    apply list_elem_of_In, filter_In in Hp as [Hp%list_elem_of_In Hsame].
    apply (same_group_true _ g) in Hsame; [|done]. by exists p.
  - intros (p & Hp & Hpg & <-). right. exists p. split; [done|].
    apply list_elem_of_In, filter_In. split; [by apply list_elem_of_In|].
    by apply (same_group_true _ g).
Qed.
End AccessibleSchemas.

(** C7, as the code has it.  [getAccessibleSchemas] returns the empty
    sequence when the user's [group_id] is absent or zero.  For any other
    [group_id] it returns the schema names of the permission records of that
    group: each such name once, and in ascending lexicographic order. *)
Theorem getAccessibleSchemas_spec (perms : list SchemaPermission.t) (user : User.t) :
  (User.group_id user = None → getAccessibleSchemas perms user = [])
  ∧ (User.group_id user = Some 0 → getAccessibleSchemas perms user = [])
  ∧ (∀ g, User.group_id user = Some g → g ≠ 0 →
       NoDup (getAccessibleSchemas perms user)
       ∧ StronglySorted lex_le (getAccessibleSchemas perms user)
       ∧ ∀ s, s ∈ getAccessibleSchemas perms user
              ↔ ∃ p, p ∈ perms ∧ SchemaPermission.group_id p = g
                     ∧ SchemaPermission.schema_name p = s).
Proof.
  split_and!.
  - intros Hg. apply getAccessibleSchemas_falsy. by rewrite Hg.
  - intros Hg. apply getAccessibleSchemas_falsy. by rewrite Hg.
  - intros g Hg Hg0. split_and!.
    + unfold getAccessibleSchemas. destruct (negb _); [constructor|].
      apply Array_sort_NoDup, Set_add_all_NoDup. constructor.
    + unfold getAccessibleSchemas. destruct (negb _); [constructor|].
      apply Array_sort_sorted.
    + intros s. by apply getAccessibleSchemas_elem_of.
Qed.

Lemma getAccessibleSchemas_spec_witness :
  NoDup (getAccessibleSchemas MOCK_PERMISSIONS analyst_user)
  ∧ StronglySorted lex_le (getAccessibleSchemas MOCK_PERMISSIONS analyst_user)
  ∧ ∀ s, s ∈ getAccessibleSchemas MOCK_PERMISSIONS analyst_user
         ↔ ∃ p, p ∈ MOCK_PERMISSIONS ∧ SchemaPermission.group_id p = 2
                ∧ SchemaPermission.schema_name p = s.
Proof.
  apply (proj2 (proj2 (getAccessibleSchemas_spec MOCK_PERMISSIONS analyst_user)) 2).
  - reflexivity.
  - lia.
Defined.

(** The claim C7 as the specification words it fails for a user of group 0:
    the user has a group and the group has permission records, yet the
    result is empty. *)
Lemma getAccessibleSchemas_group_zero_empty :
  User.group_id group_zero_user = Some 0
  ∧ SchemaPermission.mk 0 "public" WRITE ∈ group_zero_perms
  ∧ ("public" ∉ getAccessibleSchemas group_zero_perms group_zero_user)
  ∧ getAccessibleSchemas group_zero_perms group_zero_user = [].
Proof.
  split_and!; [reflexivity|by left| |reflexivity].
  change (getAccessibleSchemas group_zero_perms group_zero_user) with (@nil string).
  apply not_elem_of_nil.
Qed.

Example getAccessibleSchemas_mock_users :
  getAccessibleSchemas MOCK_PERMISSIONS admin_user = ["hr"; "public"; "sales"]
  ∧ getAccessibleSchemas MOCK_PERMISSIONS analyst_user = ["public"; "sales"]
  ∧ getAccessibleSchemas MOCK_PERMISSIONS viewer_user = ["public"]
  ∧ getAccessibleSchemas MOCK_PERMISSIONS ungrouped_user = [].
Proof. split_and!; reflexivity. Qed.

Example hasWritePermission_mock_users :
  hasWritePermission MOCK_PERMISSIONS admin_user "hr" = true
  ∧ hasWritePermission MOCK_PERMISSIONS analyst_user "public" = false
  ∧ hasWritePermission MOCK_PERMISSIONS viewer_user "sales" = false
  ∧ hasWritePermission MOCK_PERMISSIONS ungrouped_user "public" = false.
Proof. split_and!; reflexivity. Qed.

(** The scenario of the specification: a group with READ on [sales] only. *)
Example getAccessibleSchemas_sales_only :
  getAccessibleSchemas [SchemaPermission.mk 2 "sales" READ] analyst_user = ["sales"].
Proof. reflexivity. Qed.

Lemma hasWritePermission_spec_witness :
  hasWritePermission MOCK_PERMISSIONS analyst_user "sales" = false.
Proof.
  apply (proj2 (proj2 (proj2 (proj2
           (hasWritePermission_spec MOCK_PERMISSIONS analyst_user "sales"))))
           2 (SchemaPermission.mk 2 "sales" READ)).
  - reflexivity.
  - exists (take 4 MOCK_PERMISSIONS), (drop 5 MOCK_PERMISSIONS).
    split_and!; [reflexivity..|].
    repeat constructor; simpl; intros [? ?]; congruence.
  - reflexivity.
Defined.

(** The claim C2 as the specification words it fails for a user of group 0:
    the user has a group and the first record for that group and the schema
    has level WRITE, yet the check answers false. *)
Lemma hasWritePermission_group_zero_false :
  User.group_id group_zero_user = Some 0
  ∧ first_record_for group_zero_perms 0 "public" (SchemaPermission.mk 0 "public" WRITE)
  ∧ hasWritePermission group_zero_perms group_zero_user "public" = false.
Proof.
  split_and!; [reflexivity| |reflexivity].
  exists [], (drop 1 group_zero_perms). split_and!; [reflexivity..|constructor].
Qed.

(** C10.  For a user whose [group_id] is 0, [getAccessibleSchemas] returns
    the empty sequence and [hasWritePermission] returns false, whatever the
    permission table holds: the test [!user.group_id] takes 0 for a missing
    group. *)
Theorem group_zero_is_no_group (perms : list SchemaPermission.t) (user : User.t)
    (schemaName : string) :
  User.group_id user = Some 0 →
  getAccessibleSchemas perms user = []
  ∧ hasWritePermission perms user schemaName = false.
Proof.
  intros Hg. split.
  - apply getAccessibleSchemas_falsy. by rewrite Hg.
  - apply hasWritePermission_falsy. by rewrite Hg.
Qed.

Lemma group_zero_is_no_group_witness :
  (SchemaPermission.mk 0 "public" WRITE ∈ group_zero_perms)
  ∧ getAccessibleSchemas group_zero_perms group_zero_user = []
  ∧ hasWritePermission group_zero_perms group_zero_user "public" = false.
Proof.
  split; [by left|].
  apply (group_zero_is_no_group group_zero_perms group_zero_user "public").
  reflexivity.
Defined.

(** ** Strings *)

Section StringFacts.
Implicit Types (s p pre post : string) (a b : ascii).

Lemma truthy_string_true s : truthy_string s = true ↔ s ≠ "".
Proof. by destruct s. Qed.

Lemma append_nil_l s : "" +:+ s = s.
Proof. reflexivity. Qed.

Lemma append_cons a s p : String a s +:+ p = String a (s +:+ p).
Proof. reflexivity. Qed.

Lemma append_empty_r s : s +:+ "" = s.
Proof.
  induction s as [|a s IH]; [done|]. by rewrite append_cons, IH.
Qed.

Lemma append_assoc s p post : (s +:+ p) +:+ post = s +:+ p +:+ post.
Proof.
  induction s as [|a s IH]; [done|]. by rewrite !append_cons, IH.
Qed.

Lemma startsWith_spec s p : startsWith s p = true ↔ ∃ rest, s = p +:+ rest.
Proof.
  revert s. induction p as [|b p IH]; intros s; simpl.
  - split; [by exists s|done].
  - destruct s as [|a s].
    + split; [done|]. by intros [rest ?].
    + rewrite andb_true_iff, bool_decide_eq_true, IH. split.
      * intros [-> [rest ->]]. by exists rest.
      * intros [rest Hrest]. rewrite append_cons in Hrest.
        injection Hrest as -> ->. split; [done|]. by exists rest.
Qed.

Lemma includes_spec s p : includes s p = true ↔ contains s p.
Proof.
  unfold contains. induction s as [|a s IH]; simpl.
  - rewrite orb_false_r, startsWith_spec. split.
    + intros [rest Hrest]. by exists "", rest.
    + intros ([|??] & post & Hpost); [|done]. by exists post.
  - rewrite orb_true_iff, IH. split.
    + intros [[rest Hrest]%startsWith_spec|(pre & post & ->)].
      * by exists "", rest.
      * by exists (String a pre), post.
    + intros ([|b pre] & post & Hpost).
      * left. apply startsWith_spec. by exists post.
      * right. rewrite append_cons in Hpost.
        injection Hpost as -> ->. by exists pre, post.
Qed.

Lemma contains_refl s : contains s s.
Proof. exists "", "". by rewrite append_nil_l, append_empty_r. Qed.
End StringFacts.

(** ** The table store *)

Section Store.
Context {value : Type}.
Implicit Types (tables : store value) (key : string) (rows : list (row value)).

Lemma tables_get_set_eq tables key rows :
  tables_get (tables_set tables key rows) key = Some rows.
Proof.
  unfold tables_get.
  induction tables as [|[k w] tables IH]; simpl.
  - by rewrite bool_decide_true.
  - case_bool_decide as Hk; simpl.
    + by rewrite bool_decide_true.
    + by rewrite bool_decide_false.
Qed.

Lemma tables_get_set_ne tables key key' rows :
  key' ≠ key →
  tables_get (tables_set tables key rows) key' = tables_get tables key'.
Proof.
  intros Hne. unfold tables_get.
  induction tables as [|[k w] tables IH]; simpl.
  - by rewrite bool_decide_false.
  - case_bool_decide as Hk; simpl.
    + subst k. by rewrite !bool_decide_false by done.
    + case_bool_decide; [done|]. apply IH.
Qed.

Lemma tables_get_None tables key :
  tables_get tables key = None ↔ key ∉ Object_keys tables.
Proof.
  unfold tables_get, Object_keys.
  induction tables as [|[k w] tables IH]; simpl.
  - split; [intros _; apply not_elem_of_nil|done].
  - rewrite not_elem_of_cons. case_bool_decide as Hk; simpl in *.
    + split; [done|]. by intros [[] _].
    + rewrite IH. split; [by intros ?|by intros [_ ?]].
Qed.

(** Writing keeps the storage order: a present key keeps its place, a new
    key goes last. *)
Lemma Object_keys_set tables key rows :
  Object_keys (tables_set tables key rows)
  = if bool_decide (key ∈ Object_keys tables) then Object_keys tables
    else Object_keys tables ++ [key].
Proof.
  unfold Object_keys.
  induction tables as [|[k w] tables IH]; [done|].
  cbn [tables_set]. destruct (decide (k = key)) as [->|Hk].
  - rewrite (bool_decide_true (key = key)) by done.
    rewrite !fmap_cons. cbn [fst]. by rewrite bool_decide_true by left.
  - rewrite (bool_decide_false (k = key)) by done.
    rewrite !fmap_cons, IH. cbn [fst].
    destruct (decide (key ∈ tables.*1)) as [Hin|Hin].
    + rewrite (bool_decide_true (key ∈ tables.*1)) by done.
      by rewrite bool_decide_true by by right.
    + rewrite (bool_decide_false (key ∈ tables.*1)) by done.
      rewrite bool_decide_false; [done|].
      rewrite elem_of_cons. by intros [->|?].
Qed.

Lemma table_rows_set tables schemaName tableName rows :
  table_rows (updateData tables schemaName tableName rows).1
    (fullKey_of schemaName tableName) = rows.
Proof. unfold table_rows, updateData. simpl. by rewrite tables_get_set_eq. Qed.
End Store.

(** ** Pagination arithmetic *)

Section Pagination.
Context {A : Type}.
Implicit Types (l : list A).

Lemma slice_window l (start end_ : Z) :
  0 ≤ start ≤ end_ →
  slice l start end_ = take (Z.to_nat (end_ - start)) (drop (Z.to_nat start) l).
Proof.
  intros [H0 Hle]. unfold slice.
  assert ((start <? 0) = false) as -> by lia.
  assert ((end_ <? 0) = false) as -> by lia.
  destruct (decide (start ≤ Z.of_nat (length l))) as [Hin|Hout].
  - rewrite (Z.min_l start) by done.
    destruct (decide (end_ ≤ Z.of_nat (length l))) as [Hin'|Hout'].
    + by rewrite (Z.min_l end_) by done.
    + rewrite (Z.min_r end_) by lia.
      rewrite !take_ge; [done|rewrite length_drop; lia..].
  - rewrite (Z.min_r start), (Z.min_r end_) by lia.
    rewrite (drop_ge l (Z.to_nat start)) by lia.
    by rewrite take_nil, Z.sub_diag.
Qed.

Lemma slice_beyond l (start end_ : Z) :
  Z.of_nat (length l) ≤ start → 0 ≤ start ≤ end_ → slice l start end_ = [].
Proof.
  intros Hlen Hle. rewrite slice_window by done.
  rewrite drop_ge by lia. apply take_nil.
Qed.
End Pagination.

Lemma Math_ceil_div_PAGE_SIZE (n : Z) :
  PAGE_SIZE * (Math_ceil_div n PAGE_SIZE - 1) < n ≤ PAGE_SIZE * Math_ceil_div n PAGE_SIZE.
Proof.
  unfold Math_ceil_div, PAGE_SIZE, Qceiling, Qfloor. simpl.
  rewrite Z.mul_1_r. change (Z.pos (1 * 50)) with 50.
  pose proof (Z.div_mod (- n) 50 ltac:(done)).
  pose proof (Z.mod_pos_bound (- n) 50 ltac:(done)).
  lia.
Qed.

Lemma Math_ceil_div_zero (n : Z) :
  0 ≤ n → Math_ceil_div n PAGE_SIZE = 0 ↔ n = 0.
Proof.
  intros Hn. pose proof (Math_ceil_div_PAGE_SIZE n). unfold PAGE_SIZE in *. lia.
Qed.

(** ** Filtering *)

Section Kept.
Context {A : Type} (P : A → Prop).
Implicit Types (l kept : list A).

Lemma Kept_filter (f : A → bool) l :
  (∀ x, f x = true ↔ P x) → Kept P l (List.filter f l).
Proof.
  intros Hf. induction l as [|x l IH]; simpl; [constructor|].
  destruct (f x) eqn:Hx.
  - constructor; [by apply Hf|done].
  - constructor; [|done]. rewrite <-Hf, Hx. done.
Qed.

(** The kept elements are determined by the input. *)
Lemma Kept_unique l kept kept' : Kept P l kept → Kept P l kept' → kept = kept'.
Proof.
  intros H. revert kept'.
  induction H as [|x l kept Hx _ IH|x l kept Hx _ IH]; inversion 1; subst;
    try done; try (f_equal; auto); auto.
Qed.

(** The order of the rows is kept. *)
Lemma Kept_sublist l kept : Kept P l kept → kept `sublist_of` l.
Proof. induction 1; by constructor. Qed.

Lemma Kept_elem_of l kept x : Kept P l kept → x ∈ kept ↔ x ∈ l ∧ P x.
Proof.
  induction 1 as [|y l kept Hy _ IH|y l kept Hy _ IH].
  - rewrite elem_of_nil. tauto.
  - rewrite !elem_of_cons, IH. split; [intros [->|[??]]; auto|tauto].
  - rewrite elem_of_cons, IH. split; [tauto|]. intros [[->|?] ?]; tauto.
Qed.
End Kept.

(** Letter case of ASCII text: lower-casing and upper-casing forget the
    same thing. *)
Section AsciiCase.
Implicit Types (s p : string) (a : ascii).

Lemma toUpperCase_append s1 s2 :
  toUpperCase (s1 +:+ s2) = toUpperCase s1 +:+ toUpperCase s2.
Proof.
  induction s1 as [|a s1 IH]; [done|]. rewrite append_cons. simpl.
  by rewrite IH, append_cons.
Qed.

Lemma ascii_toLowerCase_append s1 s2 :
  ascii_toLowerCase (s1 +:+ s2) = ascii_toLowerCase s1 +:+ ascii_toLowerCase s2.
Proof.
  induction s1 as [|a s1 IH]; [done|]. rewrite append_cons. simpl.
  by rewrite IH, append_cons.
Qed.

Lemma toUpperCase_lower_char a :
  toUpperCase_char (toLowerCase_char a) = toUpperCase_char a.
Proof. by destruct a as [[] [] [] [] [] [] [] []]. Qed.

Lemma toLowerCase_upper_char a :
  toLowerCase_char (toUpperCase_char a) = toLowerCase_char a.
Proof. by destruct a as [[] [] [] [] [] [] [] []]. Qed.

Lemma toUpperCase_lower s : toUpperCase (ascii_toLowerCase s) = toUpperCase s.
Proof.
  induction s as [|a s IH]; [done|]. simpl. by rewrite toUpperCase_lower_char, IH.
Qed.

Lemma ascii_toLowerCase_upper s :
  ascii_toLowerCase (toUpperCase s) = ascii_toLowerCase s.
Proof.
  induction s as [|a s IH]; [done|]. simpl. by rewrite toLowerCase_upper_char, IH.
Qed.

Lemma contains_toUpperCase s p :
  contains s p → contains (toUpperCase s) (toUpperCase p).
Proof.
  intros (pre & post & ->). exists (toUpperCase pre), (toUpperCase post).
  by rewrite !toUpperCase_append.
Qed.

Lemma contains_ascii_toLowerCase s p :
  contains s p → contains (ascii_toLowerCase s) (ascii_toLowerCase p).
Proof.
  intros (pre & post & ->).
  exists (ascii_toLowerCase pre), (ascii_toLowerCase post).
  by rewrite !ascii_toLowerCase_append.
Qed.

(** The lower-cased pattern occurs in the lower-cased text iff the pattern
    occurs in the text when the case of ASCII letters is ignored. *)
Lemma contains_ascii_toLowerCase_iff s p :
  contains (ascii_toLowerCase s) (ascii_toLowerCase p)
  ↔ contains_ignoring_case s p.
Proof.
  unfold contains_ignoring_case. split.
  - intros H%contains_toUpperCase. by rewrite !toUpperCase_lower in H.
  - intros H%contains_ascii_toLowerCase. by rewrite !ascii_toLowerCase_upper in H.
Qed.
End AsciiCase.

Lemma Object_values_elem_of {value : Type} (r : row value) (v : value) :
  v ∈ Object_values r ↔ ∃ k, r !! k = Some v.
Proof.
  unfold Object_values. rewrite list_elem_of_fmap. split.
  - intros ([k w] & -> & Hkw%elem_of_map_to_list). by exists k.
  - intros [k Hk]. exists (k, v). split; [done|]. by apply elem_of_map_to_list.
Qed.

Lemma row_filter_spec {value : Type} `{!Builtins value}
    (clause : string) (r : row value) :
  existsb (fun val => includes (toLowerCase (value := value) (String_ val))
                          (toLowerCase (value := value) clause))
    (Object_values r) = true
  ↔ row_matches clause r.
Proof.
  unfold row_matches. rewrite existsb_exists. split.
  - intros (v & [k Hk]%list_elem_of_In%Object_values_elem_of & Hv%includes_spec).
    by exists k, v.
  - intros (k & v & Hk & Hv). exists v. split.
    + apply list_elem_of_In, Object_values_elem_of. by exists k.
    + by apply includes_spec.
Qed.

(** For ASCII text the test of the filter is the substring search that
    ignores letter case. *)
Lemma row_matches_ascii {value : Type} `{!Builtins value} (clause : string)
    (r : row value) :
  is_ascii clause = true →
  (∀ k v, r !! k = Some v → is_ascii (String_ v) = true) →
  row_matches clause r
  ↔ ∃ k v, r !! k = Some v ∧ contains_ignoring_case (String_ v) clause.
Proof.
  intros Hclause Hrow. unfold row_matches.
  rewrite (toLowerCase_ascii clause Hclause). split.
  - intros (k & v & Hk & Hv). exists k, v. split; [done|].
    rewrite (toLowerCase_ascii _ (Hrow k v Hk)) in Hv.
    by apply contains_ascii_toLowerCase_iff.
  - intros (k & v & Hk & Hv). exists k, v. split; [done|].
    rewrite (toLowerCase_ascii _ (Hrow k v Hk)).
    by apply contains_ascii_toLowerCase_iff.
Qed.

(** A row with a field that holds an ASCII string in which the ASCII filter
    text occurs, letter case ignored, passes the test of the filter; so does
    a row with a field that holds an integer in whose digits the filter
    text occurs. *)
Lemma row_matches_string {value : Type} `{!Builtins value} (clause : string)
    (r : row value) (k s : string) :
  is_ascii clause = true → is_ascii s = true →
  r !! k = Some (string_value s) →
  contains_ignoring_case s clause →
  row_matches clause r.
Proof.
  intros Hclause Hs Hk Hsub. exists k, (string_value s). split; [done|].
  rewrite String_string, (toLowerCase_ascii s Hs), (toLowerCase_ascii clause Hclause).
  by apply contains_ascii_toLowerCase_iff.
Qed.

Lemma is_ascii_pretty_N_go (x : N) (s : string) :
  is_ascii s = true → is_ascii (pretty_N_go x s) = true.
Proof.
  revert s. induction (N.lt_wf_0 x) as [x _ IH]. intros s Hs.
  destruct (decide (x = 0)%N) as [->|Hx]; [by rewrite pretty_N_go_0|].
  rewrite pretty_N_go_step by lia. apply IH.
  - apply N.div_lt; lia.
  - simpl. rewrite Hs, andb_true_r.
    unfold pretty_N_char. by repeat case_match.
Qed.

Lemma is_ascii_pretty_Z (n : Z) : is_ascii (pretty n) = true.
Proof.
  assert (∀ x : N, is_ascii (pretty x) = true) as HN.
  { intros x. unfold pretty, pretty_N. case_decide; [done|].
    by apply is_ascii_pretty_N_go. }
  destruct n as [|x|x]; [done|apply HN|].
  unfold pretty, pretty_Z. rewrite append_cons, append_nil_l. simpl. apply HN.
Qed.

Lemma row_matches_integer {value : Type} `{!Builtins value} (clause : string)
    (r : row value) (k : string) (n : Z) (safe : safe_integer n) :
  is_ascii clause = true →
  r !! k = Some (integer_value n safe) →
  contains_ignoring_case (pretty n) clause →
  row_matches clause r.
Proof.
  intros Hclause Hk Hsub. exists k, (integer_value n safe). split; [done|].
  rewrite String_integer, (toLowerCase_ascii _ (is_ascii_pretty_Z n)),
    (toLowerCase_ascii clause Hclause).
  by apply contains_ascii_toLowerCase_iff.
Qed.

Lemma filterRows_Kept {value : Type} `{!Builtins value}
    (clause : string) (data : list (row value)) :
  clause ≠ "" → Kept (row_matches clause) data (filterRows (Some clause) data).
Proof.
  intros Hne%truthy_string_true. unfold filterRows. rewrite Hne.
  apply Kept_filter. intros r. apply row_filter_spec.
Qed.

Lemma filterRows_no_filter {value : Type} `{!Builtins value}
    (whereClause : option string) (data : list (row value)) :
  whereClause = None ∨ whereClause = Some "" → filterRows whereClause data = data.
Proof. by intros [->| ->]. Qed.

(** C5.  For a filter text that is not empty, [getData] keeps a row iff some
    field of the row, converted by [String] and lower-cased by
    [toLowerCase], contains the lower-cased filter text; the kept rows stand
    in their original order, and the result counts and pages exactly them.
    This holds for every kind of field value and for the built-ins as the
    language defines them.  For an ASCII filter text: a row whose fields
    have ASCII texts is kept iff the filter text occurs in the text of some
    field when letter case is ignored; a row is kept when the filter text
    occurs, letter case ignored, in a field that holds an ASCII string, and
    when it occurs in the decimal digits of a field that holds an integer. *)
Theorem getData_filter {value : Type} `{!Builtins value} (tables : store value)
    (schemaName tableName : string) (page : Z) (clause : string) :
  clause ≠ "" →
  let rows := table_rows tables (fullKey_of schemaName tableName) in
  let r := getData tables schemaName tableName page (Some clause) in
  ∃ kept,
    Kept (row_matches clause) rows kept
    ∧ kept `sublist_of` rows
    ∧ (∀ x, x ∈ kept ↔ x ∈ rows ∧ row_matches clause x)
    ∧ (is_ascii clause = true →
       ∀ x, (∀ k v, x !! k = Some v → is_ascii (String_ v) = true) →
            x ∈ kept
            ↔ x ∈ rows
              ∧ ∃ k v, x !! k = Some v
                       ∧ contains_ignoring_case (String_ v) clause)
    ∧ (is_ascii clause = true →
       ∀ x k s, x ∈ rows → x !! k = Some (string_value s) →
                is_ascii s = true → contains_ignoring_case s clause →
                x ∈ kept)
    ∧ (is_ascii clause = true →
       ∀ x k n safe, x ∈ rows → x !! k = Some (integer_value n safe) →
                     contains_ignoring_case (pretty n) clause →
                     x ∈ kept)
    ∧ QueryResult.total_rows r = Z.of_nat (length kept)
    ∧ QueryResult.data r
      = slice kept ((page - 1) * PAGE_SIZE) ((page - 1) * PAGE_SIZE + PAGE_SIZE).
Proof.
  intros Hne rows r.
  pose proof (filterRows_Kept clause rows Hne) as Hkept.
  exists (filterRows (Some clause) rows). split_and!; [done| | | | | |done..].
  - by eapply Kept_sublist.
  - intros x. by eapply Kept_elem_of.
  - intros Hclause x Hx.
    rewrite (Kept_elem_of _ _ _ x Hkept). by rewrite row_matches_ascii.
  - intros Hclause x k s Hin Hk Hs Hsub.
    apply (Kept_elem_of _ _ _ x Hkept). split; [done|].
    by eapply row_matches_string.
  - intros Hclause x k n safe Hin Hk Hsub.
    apply (Kept_elem_of _ _ _ x Hkept). split; [done|].
    by eapply row_matches_integer.
Qed.

(** On the sample table [hr.employees]: the text [JOHN] finds the rows of
    John Doe and Bob Johnson and only them, and the text [7500] finds the row
    with the salary 75000. *)
Lemma getData_filter_witness :
  (∃ kept,
     Kept (row_matches "JOHN") hr_employees kept
     ∧ kept `sublist_of` hr_employees
     ∧ (∀ x, x ∈ kept ↔ x ∈ hr_employees ∧ row_matches "JOHN" x)
     ∧ (is_ascii "JOHN" = true →
        ∀ x, (∀ k v, x !! k = Some v → is_ascii (String_ v) = true) →
             x ∈ kept
             ↔ x ∈ hr_employees
               ∧ ∃ k v, x !! k = Some v
                        ∧ contains_ignoring_case (String_ v) "JOHN")
     ∧ (is_ascii "JOHN" = true →
        ∀ x k s, x ∈ hr_employees → x !! k = Some (string_value s) →
                 is_ascii s = true → contains_ignoring_case s "JOHN" →
                 x ∈ kept)
     ∧ (is_ascii "JOHN" = true →
        ∀ x k n safe, x ∈ hr_employees → x !! k = Some (integer_value n safe) →
                      contains_ignoring_case (pretty n) "JOHN" →
                      x ∈ kept)
     ∧ QueryResult.total_rows (getData sample_tables "hr" "employees" 1 (Some "JOHN"))
       = Z.of_nat (length kept)
     ∧ QueryResult.data (getData sample_tables "hr" "employees" 1 (Some "JOHN"))
       = slice kept ((1 - 1) * PAGE_SIZE) ((1 - 1) * PAGE_SIZE + PAGE_SIZE))
  ∧ QueryResult.data (getData sample_tables "hr" "employees" 1 (Some "JOHN"))
    = [ {[ "id" := VNumber 1 I; "name" := VString "John Doe";
           "role" := VString "Manager"; "salary" := VNumber 80000 I ]};
        {[ "id" := VNumber 3 I; "name" := VString "Bob Johnson";
           "role" := VString "Designer"; "salary" := VNumber 70000 I ]} ]
  ∧ QueryResult.total_rows (getData sample_tables "hr" "employees" 1 (Some "7500")) = 1
  ∧ QueryResult.total_rows (getData sample_tables "hr" "employees" 1 (Some "true")) = 0.
Proof.
  split.
  - apply (getData_filter sample_tables "hr" "employees" 1 "JOHN"). discriminate.
  - split_and!; vm_compute; reflexivity.
Defined.

Example getData_filter_john :
  QueryResult.total_rows (getData sample_tables "hr" "employees" 1 (Some "JOHN")) = 2.
Proof. vm_compute. reflexivity. Qed.

Example scalar_String_examples :
  scalar_String (VNumber (-120) I) = "-120"
  ∧ scalar_String (VNumber 9007199254740991 I) = "9007199254740991"
  ∧ scalar_String (VBool true) = "true"
  ∧ scalar_String VNull = "null"
  ∧ scalar_String VUndefined = "undefined".
Proof. split_and!; vm_compute; reflexivity. Qed.

(** ** Pagination *)

(** C3.  For a page number from 1 on, the result of [getData] has
    [total_pages] = ceil([total_rows] / 50), which is 0 iff [total_rows] is
    0; its rows are the filtered sequence cut at [(page-1)*50, page*50); and
    past the last page the rows are empty, [row_count] is 0 and [total_rows]
    still counts the whole filtered sequence. *)
Theorem getData_pagination {value : Type} `{!Builtins value}
    (tables : store value) (schemaName tableName : string)
    (page : Z) (whereClause : option string) :
  1 ≤ page →
  let filtered :=
    filterRows whereClause (table_rows tables (fullKey_of schemaName tableName)) in
  let r := getData tables schemaName tableName page whereClause in
  QueryResult.total_rows r = Z.of_nat (length filtered)
  ∧ 50 * (QueryResult.total_pages r - 1) < QueryResult.total_rows r
      ≤ 50 * QueryResult.total_pages r
  ∧ (QueryResult.total_pages r = 0 ↔ QueryResult.total_rows r = 0)
  ∧ QueryResult.data r = take 50 (drop (Z.to_nat ((page - 1) * 50)) filtered)
  ∧ (∀ i : nat,
       QueryResult.data r !! i
       = if decide (i < 50)%nat
         then filtered !! (Z.to_nat ((page - 1) * 50) + i)%nat else None)
  ∧ QueryResult.row_count r = Z.of_nat (length (QueryResult.data r))
  ∧ QueryResult.page r = page
  ∧ QueryResult.page_size r = 50
  ∧ (page > QueryResult.total_pages r →
     QueryResult.data r = [] ∧ QueryResult.row_count r = 0
     ∧ QueryResult.total_rows r = Z.of_nat (length filtered)).
Proof.
  intros Hpage filtered r.
  assert (QueryResult.data r = take 50 (drop (Z.to_nat ((page - 1) * 50)) filtered))
    as Hdata.
  { unfold r, getData. cbn [QueryResult.data]. fold filtered.
    unfold PAGE_SIZE. rewrite slice_window by lia.
    by replace ((page - 1) * 50 + 50 - (page - 1) * 50) with 50 by lia. }
  pose proof (Math_ceil_div_PAGE_SIZE (Z.of_nat (length filtered))) as Hceil.
  unfold PAGE_SIZE in Hceil.
  split; [done|]. split; [exact Hceil|].
  split; [apply (Math_ceil_div_zero (Z.of_nat (length filtered))); lia|].
  split; [done|]. split; [|do 3 (split; [done|])].
  - intros i. by rewrite Hdata, lookup_take, lookup_drop.
  - intros Hlast.
    assert (QueryResult.data r = []) as Hnil.
    { rewrite Hdata, drop_ge; [done|].
      change (QueryResult.total_pages r)
        with (Math_ceil_div (Z.of_nat (length filtered)) 50) in Hlast.
      lia. }
    split_and!; [done| |done].
    change (QueryResult.row_count r) with (Z.of_nat (length (QueryResult.data r))).
    by rewrite Hnil.
Qed.

Lemma getData_pagination_witness :
  QueryResult.data (getData sample_tables "hr" "employees" 2 None) = []
  ∧ QueryResult.total_rows (getData sample_tables "hr" "employees" 2 None) = 3
  ∧ QueryResult.total_pages (getData sample_tables "hr" "employees" 2 None) = 1.
Proof.
  destruct (getData_pagination sample_tables "hr" "employees" 2 None ltac:(lia))
    as (Htotal & _ & _ & _ & _ & _ & _ & _ & Hlast).
  split_and!.
  - apply Hlast. reflexivity.
  - exact Htotal.
  - reflexivity.
Defined.

(** ** Replacing a table *)

(** C1, as the code has it.  [updateData] takes no user and makes no
    permission check: for every schema, table and row sequence it returns
    true and sets the stored rows of ["schema.table"] to the new rows, and it
    leaves every other key as it was. *)
Theorem updateData_unconditional {value : Type}
    (tables : store value) (schemaName tableName : string)
    (rows : list (row value)) :
  (updateData tables schemaName tableName rows).2 = true
  ∧ tables_get (updateData tables schemaName tableName rows).1
      (schemaName +:+ "." +:+ tableName) = Some rows
  ∧ (∀ key, key ≠ schemaName +:+ "." +:+ tableName →
       tables_get (updateData tables schemaName tableName rows).1 key
       = tables_get tables key).
Proof.
  split_and!; [done|apply tables_get_set_eq|].
  intros key Hkey. by apply tables_get_set_ne.
Qed.

Lemma updateData_unconditional_witness :
  tables_get (updateData sample_tables "sales" "orders" []).1 "hr.employees"
  = Some hr_employees.
Proof.
  rewrite (proj2 (proj2 (updateData_unconditional sample_tables "sales" "orders" [])))
    by discriminate.
  reflexivity.
Defined.

(** The claim C1 as the specification words it fails: the analyst's group
    has READ on [sales] only, the write check answers false, and yet
    [updateData] returns true and the rows of [sales.orders] are replaced. *)
Lemma updateData_read_only_group :
  hasWritePermission MOCK_PERMISSIONS analyst_user "sales" = false
  ∧ (updateData sample_tables "sales" "orders" []).2 = true
  ∧ tables_get sample_tables "sales.orders" = Some sample_orders
  ∧ tables_get (updateData sample_tables "sales" "orders" []).1 "sales.orders"
    = Some [].
Proof. split_and!; reflexivity. Qed.

(** C6.  After [updateData] with [rows], [getData] for the same schema and
    table, page 1 and no filter (the argument left out, or the empty string)
    returns the first 50 elements of [rows] and [total_rows] = the length of
    [rows]. *)
Theorem updateData_getData_roundtrip {value : Type} `{!Builtins value}
    (tables : store value)
    (schemaName tableName : string) (rows : list (row value)) :
  let tables' := (updateData tables schemaName tableName rows).1 in
  (updateData tables schemaName tableName rows).2 = true
  ∧ QueryResult.data (getData tables' schemaName tableName 1 None) = take 50 rows
  ∧ QueryResult.total_rows (getData tables' schemaName tableName 1 None)
    = Z.of_nat (length rows)
  ∧ QueryResult.data (getData tables' schemaName tableName 1 (Some "")) = take 50 rows
  ∧ QueryResult.total_rows (getData tables' schemaName tableName 1 (Some ""))
    = Z.of_nat (length rows).
Proof.
  intros tables'.
  assert (∀ whereClause, whereClause = None ∨ whereClause = Some "" →
    QueryResult.data (getData tables' schemaName tableName 1 whereClause) = take 50 rows
    ∧ QueryResult.total_rows (getData tables' schemaName tableName 1 whereClause)
      = Z.of_nat (length rows)) as Hboth.
  { intros whereClause Hno. unfold getData, tables'.
    rewrite table_rows_set, filterRows_no_filter by done.
    cbn [QueryResult.data QueryResult.total_rows]. split; [|done].
    unfold PAGE_SIZE. by rewrite slice_window by lia. }
  destruct (Hboth None) as [??]; [by left|].
  destruct (Hboth (Some "")) as [??]; [by right|].
  done.
Qed.

(** ** Table information *)

(** C9.  [getTableInfo] returns a [TableInfo] for every schema and table
    name.  For a key that the store does not hold both counts are 0; for a
    key that it holds, [row_count] is the number of stored rows and
    [column_count] the number of fields of the first row, or 0 when there is
    no row. *)
Theorem getTableInfo_spec {value : Type}
    (tables : store value) (schemaName tableName : string) :
  let info := getTableInfo tables schemaName tableName in
  let key := schemaName +:+ "." +:+ tableName in
  TableInfo.schema_name info = schemaName
  ∧ TableInfo.table_name info = tableName
  ∧ TableInfo.full_name info = key
  ∧ (key ∉ Object_keys tables →
     TableInfo.row_count info = 0 ∧ TableInfo.column_count info = 0)
  ∧ (∀ rows, tables_get tables key = Some rows →
       TableInfo.row_count info = Z.of_nat (length rows)
       ∧ TableInfo.column_count info
         = match rows with
           | first :: _ => Z.of_nat (size first)
           | [] => 0
           end).
Proof.
  intros info key. split_and!; try done.
  - intros Hkey%tables_get_None.
    unfold info, getTableInfo, table_rows, fullKey_of. fold key. by rewrite Hkey.
  - intros rows Hrows.
    unfold info, getTableInfo, table_rows, fullKey_of. fold key.
    rewrite Hrows. by destruct rows.
Qed.

Lemma getTableInfo_spec_witness :
  (TableInfo.row_count (getTableInfo sample_tables "hr" "employees") = 3
   ∧ TableInfo.column_count (getTableInfo sample_tables "hr" "employees") = 4)
  ∧ (TableInfo.row_count (getTableInfo sample_tables "hr" "missing") = 0
     ∧ TableInfo.column_count (getTableInfo sample_tables "hr" "missing") = 0).
Proof.
  split.
  - apply (proj2 (proj2 (proj2 (proj2
             (getTableInfo_spec sample_tables "hr" "employees")))) hr_employees).
    reflexivity.
  - apply (proj1 (proj2 (proj2 (proj2
             (getTableInfo_spec sample_tables "hr" "missing"))))).
    rewrite list_elem_of_In. simpl. intros [?|[?|[]]]; discriminate.
Defined.

(** ** The table list *)

Section Split.
Implicit Types (c a : ascii) (s rest : string).

Lemma split_free_of c s : free_of c s → split c s = [s].
Proof.
  induction s as [|a s IH]; simpl; [done|].
  intros [Ha Hs]. rewrite bool_decide_false by done. by rewrite IH.
Qed.

Lemma split_first_separator c s rest :
  free_of c s → split c (s +:+ String c rest) = s :: split c rest.
Proof.
  induction s as [|a s IH]; intros Hs.
  - rewrite append_nil_l. simpl. by rewrite bool_decide_true.
  - destruct Hs as [Ha Hs]. rewrite append_cons. simpl.
    rewrite bool_decide_false by done. by rewrite IH.
Qed.

(** For a schema name without a dot, [key.split('.')[1]] is the part of the
    table name before its first dot. *)
Lemma split_table_segment schemaName rest :
  free_of "." schemaName →
  split "." (schemaName +:+ "." +:+ rest) !! 1%nat = head (split "." rest).
Proof.
  intros Hs. change ("." +:+ rest) with (String "." rest).
  rewrite split_first_separator by done. by destruct (split "." rest).
Qed.

(** For names without dots, [key.split('.')[1]] is the whole table name. *)
Lemma split_table_name schemaName tableName :
  free_of "." schemaName → free_of "." tableName →
  split "." (fullKey_of schemaName tableName) !! 1%nat = Some tableName.
Proof.
  intros Hs Ht. unfold fullKey_of.
  by rewrite split_table_segment, split_free_of.
Qed.
End Split.

Lemma strip_prefix_Some (p s rest : string) :
  strip_prefix p s = Some rest ↔ s = p +:+ rest.
Proof.
  revert s. induction p as [|b p IH]; intros s.
  - destruct s; simpl; rewrite append_nil_l; split; congruence.
  - destruct s as [|a s]; simpl; rewrite append_cons; [split; discriminate|].
    case_bool_decide as Hab.
    + subst b. rewrite IH. split; congruence.
    + split; [discriminate|]. intros [= ? ?]. done.
Qed.

Lemma startsWith_strip_prefix (p s : string) :
  startsWith s p = true ↔ is_Some (strip_prefix p s).
Proof.
  rewrite startsWith_spec. unfold is_Some.
  by setoid_rewrite strip_prefix_Some.
Qed.

(** Where neither the schema name nor a table name of the schema holds a
    dot, [getTables] lists, in storage order, the keys that start with
    [schema + "."], with that prefix stripped. *)
Lemma getTables_dot_free {value : Type} (tables : store value) (schemaName : string) :
  free_of "." schemaName →
  (∀ rest, schemaName +:+ "." +:+ rest ∈ Object_keys tables → free_of "." rest) →
  getTables tables schemaName
  = Some <$> omap (strip_prefix (schemaName +:+ ".")) (Object_keys tables).
Proof.
  intros Hschema. unfold getTables.
  induction (Object_keys tables) as [|key keys IH]; intros Hrest; [done|].
  cbn [List.filter omap list_omap].
  assert (∀ rest, schemaName +:+ "." +:+ rest ∈ keys → free_of "." rest) as Hkeys.
  { intros rest Hin. apply Hrest. by right. }
  destruct (strip_prefix (schemaName +:+ ".") key) as [rest|] eqn:Hstrip.
  - assert (startsWith key (schemaName +:+ ".") = true) as ->.
    { apply startsWith_strip_prefix. by rewrite Hstrip. }
    apply strip_prefix_Some in Hstrip. rewrite append_assoc in Hstrip. subst key.
    rewrite !fmap_cons, IH by done. f_equal.
    apply (split_table_name schemaName rest); [done|]. apply Hrest. by left.
  - assert (startsWith key (schemaName +:+ ".") = false) as ->.
    { apply not_true_iff_false. rewrite startsWith_strip_prefix, Hstrip.
      by intros [? [=]]. }
    by apply IH.
Qed.

(** C8 fails on the code for a table name that holds a dot.  [updateData]
    stores the rows under ["sales.orders.2024"] and [getData] finds them
    there, but [getTables] lists the table as ["orders"], a name under which
    the store holds nothing. *)
Theorem getTables_dotted_table_name :
  Object_keys (updateData [] "sales" "orders.2024" sample_orders).1
  = ["sales.orders.2024"]
  ∧ startsWith "sales.orders.2024" ("sales" +:+ ".") = true
  ∧ getTables (updateData [] "sales" "orders.2024" sample_orders).1 "sales"
    = [Some "orders"]
  ∧ table_rows (updateData [] "sales" "orders.2024" sample_orders).1
      (fullKey_of "sales" "orders.2024") = sample_orders
  ∧ table_rows (updateData [] "sales" "orders.2024" sample_orders).1
      (fullKey_of "sales" "orders") = [].
Proof. split_and!; reflexivity. Qed.

Example getTables_sample :
  getTables sample_tables "sales" = [Some "orders"]
  ∧ getTables sample_tables "hr" = [Some "employees"]
  ∧ getTables sample_tables "public" = [].
Proof. split_and!; reflexivity. Qed.

(** ** The keyword search of the filter validator *)

Section WordSearch.
Implicit Types (a c : ascii) (s pre mid post kw : string)
  (prev : option ascii) (atoms : list re_atom).

Lemma is_word_char_upper a : is_word_char (toUpperCase_char a) = is_word_char a.
Proof. by destruct a as [[] [] [] [] [] [] [] []]. Qed.

Lemma last_char_cons a s :
  last_char (String a s) = Some (default a (last_char s)).
Proof.
  revert a. induction s as [|b s IH]; intros a; [done|].
  change (last_char (String a (String b s))) with (last_char (String b s)).
  by rewrite IH.
Qed.

Lemma last_char_or_cons prev a s :
  last_char_or prev (String a s) = last_char_or (Some a) s.
Proof.
  unfold last_char_or. rewrite last_char_cons. by destruct (last_char s).
Qed.

Lemma first_char_upper s :
  first_char (toUpperCase s) = toUpperCase_char <$> first_char s.
Proof. by destruct s. Qed.

Lemma last_char_upper s :
  last_char (toUpperCase s) = toUpperCase_char <$> last_char s.
Proof.
  induction s as [|a s IH]; [done|].
  cbn [toUpperCase]. rewrite !last_char_cons, IH. by destruct (last_char s).
Qed.

Lemma is_word_fmap_upper (o : option ascii) :
  is_word (toUpperCase_char <$> o) = is_word o.
Proof. destruct o; [apply is_word_char_upper|done]. Qed.

Lemma same_case_first_char mid kw :
  toUpperCase mid = toUpperCase kw →
  is_word (first_char mid) = is_word (first_char kw).
Proof.
  intros Heq. rewrite <-(is_word_fmap_upper (first_char mid)).
  by rewrite <-first_char_upper, Heq, first_char_upper, is_word_fmap_upper.
Qed.

Lemma same_case_last_char mid kw :
  toUpperCase mid = toUpperCase kw →
  is_word (last_char mid) = is_word (last_char kw).
Proof.
  intros Heq. rewrite <-(is_word_fmap_upper (last_char mid)).
  by rewrite <-last_char_upper, Heq, last_char_upper, is_word_fmap_upper.
Qed.

Lemma first_char_append mid post :
  mid ≠ "" → first_char (mid +:+ post) = first_char mid.
Proof. by destruct mid. Qed.

Lemma last_char_or_nonempty prev mid :
  mid ≠ "" → last_char_or prev mid = last_char mid.
Proof.
  destruct mid as [|a mid]; [done|]. intros _.
  unfold last_char_or. by rewrite last_char_cons.
Qed.

(** A run of literals matches a prefix of the input that differs from the
    keyword in letter case only. *)
Lemma match_atoms_literals kw atoms prev s :
  match_atoms true ((Literal <$> list_ascii_of_string kw) ++ atoms) prev s = true
  ↔ ∃ mid post, s = mid +:+ post
                ∧ toUpperCase mid = toUpperCase kw
                ∧ match_atoms true atoms (last_char_or prev mid) post = true.
Proof.
  revert prev s. induction kw as [|c kw IH]; intros prev s.
  - simpl. split.
    + intros Hm. by exists "", s.
    + intros ([|??] & post & -> & Hup & Hm); [done|discriminate].
  - cbn [list_ascii_of_string fmap list_fmap app match_atoms].
    destruct s as [|a s].
    + split; [done|]. intros ([|??] & post & Heq & Hup & _); discriminate.
    + rewrite andb_true_iff, IH. unfold char_matches.
      rewrite bool_decide_eq_true. split.
      * intros (Hc & mid & post & -> & Hup & Hm).
        exists (String a mid), post. split_and!; [done| |].
        -- cbn [toUpperCase]. by rewrite Hup, Hc.
        -- by rewrite last_char_or_cons.
      * intros ([|a' mid] & post & Heq & Hup & Hm); [discriminate|].
        rewrite append_cons in Heq. injection Heq as <- ->.
        cbn [toUpperCase] in Hup. injection Hup as Hc Hup.
        split; [done|]. exists mid, post.
        by rewrite <-last_char_or_cons with (prev := prev).
Qed.

(** The search tries every position of the input. *)
Lemma search_atoms_spec ignoreCase atoms prev s :
  search_atoms ignoreCase atoms prev s = true
  ↔ ∃ pre post, s = pre +:+ post
                ∧ match_atoms ignoreCase atoms (last_char_or prev pre) post = true.
Proof.
  revert prev. induction s as [|a s IH]; intros prev; cbn [search_atoms].
  - rewrite orb_false_r. split.
    + intros Hm. by exists "", "".
    + by intros ([|??] & [|??] & Heq & Hm).
  - rewrite orb_true_iff, IH. split.
    + intros [Hm|(pre & post & -> & Hm)].
      * by exists "", (String a s).
      * exists (String a pre), post. by rewrite last_char_or_cons.
    + intros ([|a' pre] & post & Heq & Hm).
      * left. rewrite append_nil_l in Heq. by subst post.
      * right. rewrite append_cons in Heq. injection Heq as <- ->.
        exists pre, post. by rewrite <-last_char_or_cons with (prev := prev).
Qed.

(** The regular expression [\bKEYWORD\b] with the flag [i] finds exactly the
    whole-word occurrences of the keyword, for a keyword that starts and
    ends with a word character. *)
Lemma RegExp_test_word kw s :
  is_word (first_char kw) = true → is_word (last_char kw) = true →
  RegExp_test (word_regex kw) true s = true ↔ contains_word s kw.
Proof.
  intros Hfirst Hlast. unfold RegExp_test, word_regex, contains_word.
  rewrite search_atoms_spec. unfold last_char_or at 1.
  assert (kw ≠ "") as Hkw by (by destruct kw).
  split.
  - intros (pre & post0 & -> & Hm).
    cbn [match_atoms] in Hm. apply andb_true_iff in Hm as [Hb1 Hm].
    apply match_atoms_literals in Hm as (mid & post & -> & Hup & Hm).
    assert (mid ≠ "") as Hmid.
    { intros ->. destruct kw; [done|discriminate]. }
    cbn [match_atoms] in Hm. rewrite andb_true_r in Hm.
    rewrite last_char_or_nonempty in Hm by done.
    rewrite first_char_append in Hb1 by done.
    rewrite (same_case_first_char mid kw), Hfirst in Hb1 by done.
    rewrite (same_case_last_char mid kw), Hlast in Hm by done.
    exists pre, mid, post. split_and!; [done..| |].
    + destruct (last_char pre) as [a|]; simpl in *; [by destruct (is_word_char a)|done].
    + by destruct (is_word (first_char post)).
  - intros (pre & mid & post & -> & Hup & Hpre & Hpost).
    assert (mid ≠ "") as Hmid.
    { intros ->. destruct kw; [done|discriminate]. }
    exists pre, (mid +:+ post). split; [done|].
    cbn [match_atoms]. apply andb_true_iff. split.
    + rewrite first_char_append by done.
      rewrite (same_case_first_char mid kw), Hfirst by done.
      destruct (last_char pre); simpl in *; by rewrite ?Hpre.
    + apply match_atoms_literals. exists mid, post. split_and!; [done..|].
      cbn [match_atoms]. rewrite last_char_or_nonempty by done.
      by rewrite (same_case_last_char mid kw), Hlast, Hpost by done.
Qed.

Lemma FORBIDDEN_SQL_KEYWORDS_words :
  Forall (fun kw => is_word (first_char kw) = true ∧ is_word (last_char kw) = true)
    FORBIDDEN_SQL_KEYWORDS.
Proof. repeat constructor. Qed.
End WordSearch.

(** ** The filter validator *)

Lemma find_comment_pattern (clause : string) :
  is_Some (List.find (fun pattern => includes clause pattern) SQL_COMMENT_PATTERNS)
  ↔ ∃ pat, pat ∈ SQL_COMMENT_PATTERNS ∧ contains clause pat.
Proof.
  split.
  - intros [pat [Hin Hpat]%find_some]. exists pat.
    split; [by apply list_elem_of_In|by apply includes_spec].
  - intros (pat & Hin%list_elem_of_In & Hpat%includes_spec).
    destruct (List.find _ SQL_COMMENT_PATTERNS) eqn:Hfind; [done|].
    by rewrite (find_none _ _ Hfind pat Hin) in Hpat.
Qed.

Lemma find_forbidden_keyword (clause : string) :
  is_Some (List.find (fun keyword => RegExp_test (word_regex keyword) true clause)
             FORBIDDEN_SQL_KEYWORDS)
  ↔ ∃ kw, kw ∈ FORBIDDEN_SQL_KEYWORDS ∧ contains_word clause kw.
Proof.
  pose proof FORBIDDEN_SQL_KEYWORDS_words as Hwords.
  rewrite Forall_forall in Hwords.
  split.
  - intros [kw [Hin Hkw]%find_some]. exists kw.
    apply list_elem_of_In in Hin. split; [done|].
    destruct (Hwords kw Hin). by apply RegExp_test_word.
  - intros (kw & Hin & Hkw).
    destruct (Hwords kw Hin). apply RegExp_test_word in Hkw; [|done..].
    destruct (List.find _ FORBIDDEN_SQL_KEYWORDS) eqn:Hfind; [done|].
    apply list_elem_of_In in Hin.
    by rewrite (find_none _ _ Hfind kw Hin) in Hkw.
Qed.

(** C4.  [validateWhereClause] rejects a text iff the text is not empty and
    either holds one of [;], [--], [/*] as a substring or holds one of the
    nine keywords as a whole word in any letter case.  The empty text is
    accepted, [DROP] in any letter case is rejected, and [dropdown] is
    accepted. *)
Theorem validateWhereClause_spec (clause : string) :
  (Validation.isValid (validateWhereClause clause) = false
   ↔ clause ≠ ""
     ∧ ((∃ pat, pat ∈ [";"; "--"; "/*"] ∧ contains clause pat)
        ∨ (∃ kw, kw ∈ ["DELETE"; "UPDATE"; "INSERT"; "DROP"; "ALTER";
                       "EXEC"; "EXECUTE"; "CREATE"; "TRUNCATE"]
                 ∧ contains_word clause kw)))
  ∧ Validation.isValid (validateWhereClause "") = true
  ∧ (∀ s, toUpperCase s = "DROP" →
       Validation.isValid (validateWhereClause s) = false)
  ∧ Validation.isValid (validateWhereClause "dropdown") = true.
Proof.
  assert (∀ text,
    Validation.isValid (validateWhereClause text) = false
    ↔ text ≠ ""
      ∧ ((∃ pat, pat ∈ SQL_COMMENT_PATTERNS ∧ contains text pat)
         ∨ (∃ kw, kw ∈ FORBIDDEN_SQL_KEYWORDS ∧ contains_word text kw))) as Hiff.
  { intros text. rewrite <-find_comment_pattern, <-find_forbidden_keyword.
    unfold validateWhereClause. destruct text as [|a text]; [by split; [|intros []]|].
    cbn [truthy_string negb].
    destruct (List.find _ SQL_COMMENT_PATTERNS) as [pat|].
    - split; [|done]. intros _. split; [done|]. left. by eexists.
    - destruct (List.find _ FORBIDDEN_SQL_KEYWORDS) as [kw|].
      + split; [|done]. intros _. split; [done|]. right. by eexists.
      + split; [done|]. by intros [_ [[? [=]]|[? [=]]]]. }
  split_and!; [apply Hiff|done| |done].
  intros s Hs. apply Hiff. split; [by intros ->|].
  right. exists "DROP". split; [do 3 right; left|].
  exists "", s, "". by rewrite append_nil_l, append_empty_r.
Qed.

Lemma validateWhereClause_spec_witness :
  Validation.isValid (validateWhereClause "dRoP") = false.
Proof.
  apply (proj1 (proj2 (proj2 (validateWhereClause_spec "")))). reflexivity.
Defined.

Example validateWhereClause_examples :
  validateWhereClause "name = 'x'; --" = Validation.mk false
    (Some "SQL Injection attempt detected: comment pattern ';'")
  ∧ validateWhereClause "a /* b" = Validation.mk false
      (Some "SQL Injection attempt detected: comment pattern '/*'")
  ∧ validateWhereClause "status = 1 or drop table t"
    = Validation.mk false (Some "Forbidden SQL keyword detected.")
  ∧ validateWhereClause "drop_table" = Validation.mk true None
  ∧ validateWhereClause "executed" = Validation.mk true None
  ∧ validateWhereClause "(Exec)" = Validation.mk false
      (Some "Forbidden SQL keyword detected.").
Proof. split_and!; reflexivity. Qed.

(** ** Further properties of pagination *)

Section Pages.
Context {A : Type}.
Implicit Types (l : list A) (n k : nat).

(** Cutting a list into [k] windows of [n] elements and joining them gives
    the list back, when [k] windows are enough. *)
Lemma windows_join l n k :
  (length l ≤ k * n)%nat →
  mjoin ((fun i => take n (drop (i * n) l)) <$> seq 0 k) = l.
Proof.
  revert l. induction k as [|k IH]; intros l Hlen.
  - destruct l; [done|simpl in Hlen; lia].
  - cbn [seq fmap list_fmap mjoin list_join]. rewrite <-fmap_S_seq, <-list_fmap_compose.
    rewrite drop_0.
    rewrite (list_fmap_ext _ (fun i => take n (drop (i * n) (drop n l))) (seq 0 k)).
    + rewrite IH; [apply take_drop|]. rewrite length_drop. lia.
    + intros i j _. cbn. rewrite drop_drop. do 2 f_equal.
Qed.
End Pages.

Section GetDataPages.
Context {value : Type} `{!Builtins value} (tables : store value)
  (schemaName tableName : string)
  (whereClause : option string).

Let filtered : list (row value) :=
  filterRows whereClause (table_rows tables (fullKey_of schemaName tableName)).

Lemma getData_total_rows (page : Z) :
  QueryResult.total_rows (getData tables schemaName tableName page whereClause)
  = Z.of_nat (length filtered).
Proof. done. Qed.

Lemma getData_total_pages (page : Z) :
  QueryResult.total_pages (getData tables schemaName tableName page whereClause)
  = Math_ceil_div (Z.of_nat (length filtered)) PAGE_SIZE.
Proof. done. Qed.

Lemma getData_window (page : Z) :
  1 ≤ page →
  QueryResult.data (getData tables schemaName tableName page whereClause)
  = take 50 (drop (Z.to_nat ((page - 1) * 50)) filtered).
Proof.
  intros Hpage. unfold getData. cbn [QueryResult.data]. fold filtered.
  unfold PAGE_SIZE. rewrite slice_window by lia.
  by replace ((page - 1) * 50 + 50 - (page - 1) * 50) with 50 by lia.
Qed.

(** X1.  The pages 1 to [total_pages] of a query, one after the other, are
    the filtered rows: no row is lost and none is shown twice. *)
Theorem getData_pages_join :
  mjoin ((fun page =>
            QueryResult.data (getData tables schemaName tableName page whereClause))
           <$> seqZ 1 (QueryResult.total_pages
                         (getData tables schemaName tableName 1 whereClause)))
  = filtered.
Proof.
  rewrite getData_total_pages.
  pose proof (Math_ceil_div_PAGE_SIZE (Z.of_nat (length filtered))) as Hceil.
  unfold PAGE_SIZE in *.
  set (pages := Math_ceil_div (Z.of_nat (length filtered)) 50) in *.
  unfold seqZ. rewrite <-list_fmap_compose.
  rewrite (list_fmap_ext _ (fun i => take 50 (drop (i * 50) filtered))
             (seq 0 (Z.to_nat pages))).
  - apply windows_join. lia.
  - intros i j _. unfold compose. rewrite getData_window by lia.
    do 2 f_equal. lia.
Qed.

(** X2.  For a page number from 1 on, [row_count] is what is left of the
    filtered rows after the pages before, and 50 at most: every page before
    the last holds 50 rows and the last page holds the remainder, which is
    at least 1. *)
Theorem getData_row_count (page : Z) :
  1 ≤ page →
  let r := getData tables schemaName tableName page whereClause in
  QueryResult.row_count r
  = Z.max 0 (Z.min 50 (QueryResult.total_rows r - 50 * (page - 1)))
  ∧ 0 ≤ QueryResult.row_count r ≤ 50
  ∧ (page < QueryResult.total_pages r → QueryResult.row_count r = 50)
  ∧ (page = QueryResult.total_pages r →
     QueryResult.row_count r = QueryResult.total_rows r - 50 * (page - 1)
     ∧ 1 ≤ QueryResult.row_count r).
Proof.
  intros Hpage r.
  assert (QueryResult.row_count r
          = Z.max 0 (Z.min 50 (Z.of_nat (length filtered) - 50 * (page - 1)))) as Hcount.
  { change (QueryResult.row_count r) with (Z.of_nat (length (QueryResult.data r))).
    unfold r. rewrite getData_window by done.
    rewrite length_take, length_drop. lia. }
  pose proof (Math_ceil_div_PAGE_SIZE (Z.of_nat (length filtered))) as Hceil.
  unfold r in *. rewrite getData_total_rows, getData_total_pages.
  unfold PAGE_SIZE in *. rewrite Hcount. lia.
Qed.

(** X3.  A page number below 1 is no error.  Page 0 has no rows; a negative
    page is a window counted from the end of the filtered rows, so it does
    hold rows when the table is long enough. *)
Theorem getData_page_below_one (page : Z) :
  page ≤ 0 →
  let r := getData tables schemaName tableName page whereClause in
  let n := Z.of_nat (length filtered) in
  let lo := Z.max 0 (n + (page - 1) * 50) in
  let hi := Z.max 0 (n + page * 50) in
  QueryResult.total_rows r = n
  ∧ (page = 0 → QueryResult.data r = [])
  ∧ (page < 0 →
     QueryResult.data r = take (Z.to_nat (hi - lo)) (drop (Z.to_nat lo) filtered))
  ∧ (page < 0 → (1 - page) * 50 ≤ n → QueryResult.row_count r = 50).
Proof.
  intros Hpage r n lo hi.
  assert (page < 0 →
    QueryResult.data r = take (Z.to_nat (hi - lo)) (drop (Z.to_nat lo) filtered)) as Hneg.
  { intros Hlt. unfold r, getData. cbn [QueryResult.data]. fold filtered.
    unfold slice, PAGE_SIZE. fold n.
    assert (((page - 1) * 50 <? 0) = true) as -> by lia.
    assert (((page - 1) * 50 + 50 <? 0) = true) as -> by lia.
    unfold hi, lo. do 3 f_equal; lia. }
  split_and!; [done| |done|].
  - intros ->. unfold r, getData. cbn [QueryResult.data]. fold filtered.
    unfold slice, PAGE_SIZE.
    change ((0 - 1) * 50 + 50 <? 0) with false.
    change ((0 - 1) * 50 <? 0) with true. cbv iota.
    match goal with |- take ?k _ = _ => replace k with 0%nat by lia end.
    done.
  - intros Hlt Hlong.
    change (QueryResult.row_count r) with (Z.of_nat (length (QueryResult.data r))).
    rewrite Hneg by done. rewrite length_take, length_drop. unfold hi, lo, n in *. lia.
Qed.
End GetDataPages.

Lemma getData_row_count_witness :
  QueryResult.row_count (getData audit_tables "public" "users_audit" 3 None) = 20
  ∧ QueryResult.row_count (getData audit_tables "public" "users_audit" 2 None) = 50.
Proof.
  destruct (getData_row_count audit_tables "public" "users_audit" None 3 ltac:(lia))
    as (_ & _ & _ & Hlast).
  destruct (getData_row_count audit_tables "public" "users_audit" None 2 ltac:(lia))
    as (_ & _ & Hfull & _).
  split.
  - apply Hlast. reflexivity.
  - apply Hfull. reflexivity.
Defined.

Lemma getData_page_below_one_witness :
  QueryResult.row_count (getData audit_tables "public" "users_audit" (-1) None) = 50
  ∧ QueryResult.data (getData audit_tables "public" "users_audit" 0 None) = [].
Proof.
  destruct (getData_page_below_one audit_tables "public" "users_audit" None (-1)
              ltac:(lia)) as (_ & _ & _ & Hcount).
  destruct (getData_page_below_one audit_tables "public" "users_audit" None 0
              ltac:(lia)) as (_ & Hzero & _).
  split.
  - apply Hcount; [lia|]. vm_compute. discriminate.
  - by apply Hzero.
Defined.

(** The rows of page -1 of a table of 120 rows are the rows 21 to 70. *)
Example getData_page_minus_one :
  QueryResult.data (getData audit_tables "public" "users_audit" (-1) None)
  = take 50 (drop 20 users_audit).
Proof. vm_compute. reflexivity. Qed.

(** ** Further properties of the filter *)

Lemma contains_trans (s p q : string) : contains s p → contains p q → contains s q.
Proof.
  intros (pre & post & ->) (pre' & post' & ->).
  exists (pre +:+ pre'), (post' +:+ post).
  by rewrite !append_assoc.
Qed.

Lemma filter_sublist_implied {A} (f g : A → bool) (l : list A) :
  (∀ x, g x = true → f x = true) →
  List.filter g l `sublist_of` List.filter f l.
Proof.
  intros Himp. induction l as [|x l IH]; simpl; [done|].
  destruct (g x) eqn:Hg.
  - rewrite (Himp x Hg). by constructor.
  - destruct (f x); [by constructor|done].
Qed.

Lemma contains_empty (s : string) : contains "" s → s = "".
Proof.
  intros ([|??] & post & Heq); [|done].
  rewrite append_nil_l in Heq. by destruct s.
Qed.

Lemma filterRows_sublist {value : Type} `{!Builtins value}
    (whereClause : option string) (data : list (row value)) :
  filterRows whereClause data `sublist_of` data.
Proof.
  unfold filterRows. destruct whereClause as [clause|]; [|done].
  destruct (truthy_string clause); [|done].
  induction data as [|r data IH]; simpl; [done|].
  destruct (existsb _ _); by constructor.
Qed.

(** Between ASCII texts, occurrence after lower-casing is occurrence with
    letter case ignored. *)
Lemma contains_toLowerCase_ascii {value : Type} `{!Builtins value}
    (narrow wide : string) :
  is_ascii narrow = true → is_ascii wide = true →
  contains_ignoring_case narrow wide →
  contains (toLowerCase (value := value) narrow)
    (toLowerCase (value := value) wide).
Proof.
  intros Hnarrow Hwide Hsub.
  rewrite (toLowerCase_ascii narrow Hnarrow), (toLowerCase_ascii wide Hwide).
  by apply contains_ascii_toLowerCase_iff.
Qed.

Lemma filterRows_refine {value : Type} `{!Builtins value}
    (narrow wide : string) (data : list (row value)) :
  contains (toLowerCase (value := value) narrow)
    (toLowerCase (value := value) wide) →
  filterRows (Some narrow) data `sublist_of` filterRows (Some wide) data.
Proof.
  intros Hsub. unfold filterRows at 2.
  destruct (truthy_string wide) eqn:Hwide; [|apply filterRows_sublist].
  unfold filterRows. destruct (truthy_string narrow) eqn:Hnarrow.
  - apply filter_sublist_implied. intros r.
    rewrite !existsb_exists. intros (v & Hv & Hin). exists v. split; [done|].
    apply includes_spec. apply includes_spec in Hin. by eapply contains_trans.
  - destruct narrow; [|done].
    rewrite (toLowerCase_ascii "") in Hsub by done. cbn [ascii_toLowerCase] in Hsub.
    apply contains_empty, toLowerCase_nonempty in Hsub. by subst wide.
Qed.

(** X4.  Making the filter text longer never adds rows.  When the text
    [wide], lower-cased by [toLowerCase], occurs in the lower-cased text
    [narrow] (for two ASCII texts: when [wide] occurs in [narrow] with letter
    case ignored), the rows kept for [narrow] are among the rows kept for
    [wide], in the same order, and the totals of the query do not grow.  (The
    empty text occurs in every text, so filtering never adds rows to the
    table.) *)
Theorem getData_filter_refine {value : Type} `{!Builtins value}
    (tables : store value) (schemaName tableName : string)
    (page : Z) (narrow wide : string) :
  contains (toLowerCase (value := value) narrow)
    (toLowerCase (value := value) wide)
  ∨ (is_ascii narrow = true ∧ is_ascii wide = true
     ∧ contains_ignoring_case narrow wide) →
  let rows := table_rows tables (fullKey_of schemaName tableName) in
  let r_narrow := getData tables schemaName tableName page (Some narrow) in
  let r_wide := getData tables schemaName tableName page (Some wide) in
  filterRows (Some narrow) rows `sublist_of` filterRows (Some wide) rows
  ∧ QueryResult.total_rows r_narrow ≤ QueryResult.total_rows r_wide
  ∧ QueryResult.total_pages r_narrow ≤ QueryResult.total_pages r_wide.
Proof.
  intros Hsub rows r_narrow r_wide.
  assert (contains (toLowerCase (value := value) narrow)
            (toLowerCase (value := value) wide)) as Hlower.
  { destruct Hsub as [Hsub|(Hnarrow & Hwide & Hsub)]; [done|].
    by apply contains_toLowerCase_ascii. }
  pose proof (filterRows_refine narrow wide rows Hlower) as Hrows.
  pose proof (sublist_length _ _ Hrows) as Hlen.
  split_and!; [done| |].
  - unfold r_narrow, r_wide. rewrite !getData_total_rows. fold rows. lia.
  - unfold r_narrow, r_wide. rewrite !getData_total_pages. fold rows.
    pose proof (Math_ceil_div_PAGE_SIZE
                  (Z.of_nat (length (filterRows (Some narrow) rows)))).
    pose proof (Math_ceil_div_PAGE_SIZE
                  (Z.of_nat (length (filterRows (Some wide) rows)))).
    unfold PAGE_SIZE in *. lia.
Qed.

(** On the sample table [hr.employees]: [JOHN] occurs in [Johnson] with
    letter case ignored; [Johnson] finds one row, [JOHN] finds two. *)
Lemma getData_filter_refine_witness :
  (filterRows (Some "Johnson") (table_rows sample_tables (fullKey_of "hr" "employees"))
   `sublist_of`
   filterRows (Some "JOHN") (table_rows sample_tables (fullKey_of "hr" "employees"))
   ∧ QueryResult.total_rows (getData sample_tables "hr" "employees" 1 (Some "Johnson"))
     ≤ QueryResult.total_rows (getData sample_tables "hr" "employees" 1 (Some "JOHN"))
   ∧ QueryResult.total_pages (getData sample_tables "hr" "employees" 1 (Some "Johnson"))
     ≤ QueryResult.total_pages (getData sample_tables "hr" "employees" 1 (Some "JOHN")))
  ∧ QueryResult.total_rows (getData sample_tables "hr" "employees" 1 (Some "Johnson")) = 1
  ∧ QueryResult.total_rows (getData sample_tables "hr" "employees" 1 (Some "JOHN")) = 2.
Proof.
  split.
  - apply (getData_filter_refine sample_tables "hr" "employees" 1 "Johnson" "JOHN").
    right. split_and!; [reflexivity..|]. exists "", "SON". reflexivity.
  - split; vm_compute; reflexivity.
Defined.

(** ** Further properties of the catalogue and of replacing a table *)

Lemma count_char_append (c : ascii) (s1 s2 : string) :
  count_char c (s1 +:+ s2) = (count_char c s1 + count_char c s2)%nat.
Proof.
  induction s1 as [|a s1 IH]; [done|].
  rewrite append_cons. simpl. rewrite IH. lia.
Qed.

Lemma split_length (c : ascii) (s : string) :
  length (split c s) = S (count_char c s).
Proof.
  induction s as [|a s IH]; simpl; [done|].
  case_bool_decide; simpl; [by rewrite IH|].
  destruct (split c s); simpl in *; lia.
Qed.

Lemma fullKey_of_inj (s t s' t' : string) :
  free_of "." s → free_of "." s' →
  fullKey_of s t = fullKey_of s' t' → s = s' ∧ t = t'.
Proof.
  intros Hs Hs' Heq. unfold fullKey_of in Heq.
  assert (s = s') as <-.
  { apply (f_equal (split ".")) in Heq.
    change ("." +:+ t) with (String "." t) in Heq.
    change ("." +:+ t') with (String "." t') in Heq.
    rewrite !split_first_separator in Heq by done. congruence. }
  split; [done|]. apply (inj (String.app s)) in Heq.
  by apply (inj (String.app ".")) in Heq.
Qed.

Lemma getData_same_rows {value : Type} `{!Builtins value}
    (tables tables' : store value) (s t s' t' : string)
    (page : Z) (whereClause : option string) :
  table_rows tables' (fullKey_of s' t') = table_rows tables (fullKey_of s t) →
  QueryResult.data (getData tables' s' t' page whereClause)
  = QueryResult.data (getData tables s t page whereClause)
  ∧ QueryResult.total_rows (getData tables' s' t' page whereClause)
    = QueryResult.total_rows (getData tables s t page whereClause)
  ∧ QueryResult.total_pages (getData tables' s' t' page whereClause)
    = QueryResult.total_pages (getData tables s t page whereClause)
  ∧ QueryResult.row_count (getData tables' s' t' page whereClause)
    = QueryResult.row_count (getData tables s t page whereClause).
Proof. intros Heq. unfold getData. rewrite Heq. done. Qed.

(** X5.  The row count of [getTableInfo] is the total of the query without a
    filter, and no filter gives a larger total: the header of the data
    browser and its pagination line count the same table. *)
Theorem getTableInfo_getData_totals {value : Type} `{!Builtins value}
    (tables : store value) (schemaName tableName : string)
    (page : Z) (whereClause : option string) :
  QueryResult.total_rows (getData tables schemaName tableName page whereClause)
  ≤ TableInfo.row_count (getTableInfo tables schemaName tableName)
  ∧ QueryResult.total_rows (getData tables schemaName tableName page None)
    = TableInfo.row_count (getTableInfo tables schemaName tableName)
  ∧ QueryResult.total_rows (getData tables schemaName tableName page (Some ""))
    = TableInfo.row_count (getTableInfo tables schemaName tableName).
Proof.
  split_and!; [|done..].
  rewrite getData_total_rows. cbn [getTableInfo TableInfo.row_count].
  pose proof (sublist_length _ _
    (filterRows_sublist whereClause
       (table_rows tables (fullKey_of schemaName tableName)))).
  lia.
Qed.

(** X6.  After [updateData] with [rows], [getTableInfo] for that table
    counts the new rows and the fields of the first of them, whatever the
    table held before. *)
Theorem updateData_getTableInfo {value : Type}
    (tables : store value) (schemaName tableName : string)
    (rows : list (row value)) :
  let info := getTableInfo (updateData tables schemaName tableName rows).1
                schemaName tableName in
  TableInfo.row_count info = Z.of_nat (length rows)
  ∧ TableInfo.column_count info
    = match rows with
      | first :: _ => Z.of_nat (size first)
      | [] => 0
      end.
Proof.
  intros info. unfold info, getTableInfo. rewrite table_rows_set.
  by destruct rows.
Qed.

(** X7.  Replacing a table changes no other table: for schema names without
    a dot and a different pair of schema and table, the query result and the
    table information are what they were. *)
Theorem updateData_other_table {value : Type} `{!Builtins value}
    (tables : store value) (schemaName tableName : string)
    (rows : list (row value)) (schemaName' tableName' : string) (page : Z)
    (whereClause : option string) :
  free_of "." schemaName → free_of "." schemaName' →
  (schemaName', tableName') ≠ (schemaName, tableName) →
  getData (updateData tables schemaName tableName rows).1
    schemaName' tableName' page whereClause
  = getData tables schemaName' tableName' page whereClause
  ∧ getTableInfo (updateData tables schemaName tableName rows).1
      schemaName' tableName'
    = getTableInfo tables schemaName' tableName'.
Proof.
  intros Hs Hs' Hne.
  assert (table_rows (updateData tables schemaName tableName rows).1
            (fullKey_of schemaName' tableName')
          = table_rows tables (fullKey_of schemaName' tableName')) as Hrows.
  { unfold table_rows, updateData. cbn [fst]. rewrite tables_get_set_ne; [done|].
    intros Heq. apply fullKey_of_inj in Heq as [-> ->]; done. }
  unfold getData, getTableInfo. by rewrite Hrows.
Qed.

Lemma updateData_other_table_witness :
  getData (updateData sample_tables "sales" "orders" []).1 "hr" "employees" 1 None
  = getData sample_tables "hr" "employees" 1 None
  ∧ getTableInfo (updateData sample_tables "sales" "orders" []).1 "hr" "employees"
    = getTableInfo sample_tables "hr" "employees".
Proof.
  apply (updateData_other_table sample_tables "sales" "orders" [] "hr" "employees").
  - repeat split; discriminate.
  - repeat split; discriminate.
  - discriminate.
Defined.

(** X8.  Tables are stored under the joined name, so two pairs of schema and
    table that join to one string are one table: what is written as table
    [c] of schema [a.b] is read back as table [b.c] of schema [a]. *)
Theorem updateData_joined_name {value : Type} `{!Builtins value}
    (tables : store value) (a b c : string) (rows : list (row value)) :
  fullKey_of (a +:+ "." +:+ b) c = fullKey_of a (b +:+ "." +:+ c)
  ∧ QueryResult.data
      (getData (updateData tables (a +:+ "." +:+ b) c rows).1
         a (b +:+ "." +:+ c) 1 None)
    = take 50 rows
  ∧ QueryResult.total_rows
      (getData (updateData tables (a +:+ "." +:+ b) c rows).1
         a (b +:+ "." +:+ c) 1 None)
    = Z.of_nat (length rows).
Proof.
  assert (fullKey_of (a +:+ "." +:+ b) c = fullKey_of a (b +:+ "." +:+ c)) as Hkey.
  { unfold fullKey_of. by rewrite !append_assoc. }
  split; [done|].
  unfold getData. rewrite <-Hkey, table_rows_set.
  cbn [filterRows QueryResult.data QueryResult.total_rows]. split; [|done].
  unfold PAGE_SIZE. by rewrite slice_window by lia.
Qed.

Lemma getTables_keys_app (keys1 keys2 : list string) (schemaName : string) :
  (fun key => split "." key !! 1%nat)
    <$> List.filter (fun key => startsWith key (schemaName +:+ ".")) (keys1 ++ keys2)
  = ((fun key => split "." key !! 1%nat)
       <$> List.filter (fun key => startsWith key (schemaName +:+ ".")) keys1)
    ++ ((fun key => split "." key !! 1%nat)
          <$> List.filter (fun key => startsWith key (schemaName +:+ ".")) keys2).
Proof. by rewrite List.filter_app, fmap_app. Qed.

(** X9.  For names without a dot: replacing a table that exists leaves the
    table list of every schema as it was; creating a table appends its name
    to the list of its schema and leaves the lists of the other schemas as
    they were. *)
Theorem updateData_getTables {value : Type}
    (tables : store value) (schemaName tableName : string)
    (rows : list (row value)) (schemaName' : string) :
  free_of "." schemaName → free_of "." tableName → free_of "." schemaName' →
  getTables (updateData tables schemaName tableName rows).1 schemaName'
  = if bool_decide (fullKey_of schemaName tableName ∈ Object_keys tables)
    then getTables tables schemaName'
    else if bool_decide (schemaName' = schemaName)
         then getTables tables schemaName' ++ [Some tableName]
         else getTables tables schemaName'.
Proof.
  intros Hs Ht Hs'. unfold getTables, updateData. cbn [fst].
  rewrite Object_keys_set. case_bool_decide as Hin; [done|].
  rewrite getTables_keys_app. cbn [List.filter].
  case_bool_decide as Hsame.
  - subst schemaName'.
    assert (startsWith (fullKey_of schemaName tableName) (schemaName +:+ ".") = true)
      as ->.
    { apply startsWith_spec. exists tableName. unfold fullKey_of.
      by rewrite append_assoc. }
    cbn [fmap list_fmap]. by rewrite split_table_name.
  - assert (startsWith (fullKey_of schemaName tableName) (schemaName' +:+ ".") = false)
      as ->.
    { apply not_true_iff_false. intros [rest Hrest]%startsWith_spec.
      rewrite append_assoc in Hrest.
      apply (fullKey_of_inj schemaName tableName schemaName' rest) in Hrest as [? _];
        done. }
    cbn [fmap list_fmap]. by rewrite app_nil_r.
Qed.

Lemma updateData_getTables_witness :
  getTables (updateData sample_tables "hr" "salaries" []).1 "hr"
  = getTables sample_tables "hr" ++ [Some "salaries"].
Proof.
  rewrite (updateData_getTables sample_tables "hr" "salaries" [] "hr");
    [reflexivity|repeat split; discriminate..].
Defined.

(** X11.  Every entry of the list of [getTables] is a string: the index 1
    of [key.split('.')] exists for every key that passes the prefix test, so
    no entry is [undefined]. *)
Theorem getTables_defined {value : Type} (tables : store value) (schemaName : string) :
  Forall is_Some (getTables tables schemaName).
Proof.
  unfold getTables. apply Forall_fmap, Forall_forall.
  intros key [_ Hprefix]%list_elem_of_In%filter_In. cbn.
  apply startsWith_spec in Hprefix as [rest ->].
  apply lookup_lt_is_Some. rewrite split_length, !count_char_append.
  cbn [count_char]. rewrite bool_decide_true by done. lia.
Qed.

(** ** Further properties of the permission functions *)

(** X12.  Write access implies visibility: a schema for which
    [hasWritePermission] answers true is in the list of
    [getAccessibleSchemas]. *)
Theorem hasWritePermission_accessible (perms : list SchemaPermission.t)
    (user : User.t) (schemaName : string) :
  hasWritePermission perms user schemaName = true →
  schemaName ∈ getAccessibleSchemas perms user.
Proof.
  unfold hasWritePermission.
  destruct (User.group_id user) as [g|] eqn:Hg; [|done].
  destruct (truthy_number (Some g)) eqn:Ht; [|done].
  apply truthy_number_Some in Ht. simpl.
  destruct (List.find _ perms) as [p|] eqn:Hfind; [|done].
  intros _. apply find_some in Hfind as [Hin Hm].
  apply (perm_matches_true _ g) in Hm as [Hpg Hps]; [|done].
  apply (getAccessibleSchemas_elem_of perms user g); [done..|].
  exists p. by rewrite list_elem_of_In.
Qed.

Lemma hasWritePermission_accessible_witness :
  "hr" ∈ getAccessibleSchemas MOCK_PERMISSIONS admin_user.
Proof.
  apply (hasWritePermission_accessible MOCK_PERMISSIONS admin_user "hr").
  reflexivity.
Defined.

(** X13.  [getAccessibleSchemas] depends only on which pairs of group and
    schema have a record: two permission tables with the same pairs give the
    same list, whatever the order of their records, their duplicates and
    their levels. *)
Theorem getAccessibleSchemas_same_pairs (perms perms' : list SchemaPermission.t)
    (user : User.t) :
  (∀ g s,
     (∃ p, p ∈ perms ∧ SchemaPermission.group_id p = g
           ∧ SchemaPermission.schema_name p = s)
     ↔ (∃ p, p ∈ perms' ∧ SchemaPermission.group_id p = g
             ∧ SchemaPermission.schema_name p = s)) →
  getAccessibleSchemas perms user = getAccessibleSchemas perms' user.
Proof.
  intros Hpairs.
  destruct (truthy_number (User.group_id user)) eqn:Ht.
  - destruct (User.group_id user) as [g|] eqn:Hg; [|done].
    apply truthy_number_Some in Ht.
    assert (∀ l, StronglySorted String.le (getAccessibleSchemas l user)
                 ∧ NoDup (getAccessibleSchemas l user)) as Hsorted.
    { intros l. unfold getAccessibleSchemas. destruct (negb _).
      - split; constructor.
      - split; [apply (StronglySorted_merge_sort String.le)|].
        apply Array_sort_NoDup, Set_add_all_NoDup. constructor. }
    apply (StronglySorted_unique String.le); [apply Hsorted..|].
    apply NoDup_Permutation; [apply Hsorted..|].
    intros s. rewrite !(getAccessibleSchemas_elem_of _ user g) by done.
    apply Hpairs.
  - by rewrite !getAccessibleSchemas_falsy.
Qed.

Lemma getAccessibleSchemas_same_pairs_witness :
  getAccessibleSchemas [SchemaPermission.mk 2 "sales" READ;
                        SchemaPermission.mk 2 "public" READ] analyst_user
  = getAccessibleSchemas [SchemaPermission.mk 2 "public" WRITE;
                          SchemaPermission.mk 2 "sales" ADMIN;
                          SchemaPermission.mk 2 "public" READ] analyst_user.
Proof.
  apply getAccessibleSchemas_same_pairs. intros g s. split.
  - intros (p & Hp & <- & <-). apply list_elem_of_In in Hp.
    destruct Hp as [<-|[<-|[]]].
    + exists (SchemaPermission.mk 2 "sales" ADMIN).
      split; [|done]. apply list_elem_of_In. simpl. tauto.
    + exists (SchemaPermission.mk 2 "public" WRITE).
      split; [|done]. apply list_elem_of_In. simpl. tauto.
  - intros (p & Hp & <- & <-). apply list_elem_of_In in Hp.
    destruct Hp as [<-|[<-|[<-|[]]]].
    + exists (SchemaPermission.mk 2 "public" READ).
      split; [|done]. apply list_elem_of_In. simpl. tauto.
    + exists (SchemaPermission.mk 2 "sales" READ).
      split; [|done]. apply list_elem_of_In. simpl. tauto.
    + exists (SchemaPermission.mk 2 "public" READ).
      split; [|done]. apply list_elem_of_In. simpl. tauto.
Defined.

Lemma permissions_by_group (perms : list SchemaPermission.t) (u1 u2 : User.t) :
  User.group_id u1 = User.group_id u2 →
  (∀ schemaName,
     hasWritePermission perms u1 schemaName = hasWritePermission perms u2 schemaName)
  ∧ getAccessibleSchemas perms u1 = getAccessibleSchemas perms u2.
Proof.
  intros Hg. unfold hasWritePermission, getAccessibleSchemas, perm_matches, same_group.
  by rewrite Hg.
Qed.

(** ** Registration and login *)

Section Identity.
Implicit Types (users : list User.t) (groups : list Group.t)
  (email password : string) (groupId : option Z) (u : User.t).

Lemma find_email_None users email :
  List.find (has_email email) users = None ↔ email ∉ User.email <$> users.
Proof.
  induction users as [|u users IH]; simpl.
  - split; [intros _; apply not_elem_of_nil|done].
  - unfold has_email at 1. rewrite not_elem_of_cons.
    case_bool_decide as Hu; [|rewrite IH].
    + split; [done|]. intros [Hne _]. by destruct Hne.
    + split; [by intros ?|by intros [_ ?]].
Qed.

Lemma find_email_Some users email u :
  List.find (has_email email) users = Some u → u ∈ users ∧ User.email u = email.
Proof.
  intros [Hin Hu]%find_some. split; [by apply list_elem_of_In|].
  by apply bool_decide_eq_true in Hu.
Qed.

Lemma find_email_app users users' email :
  List.find (has_email email) (users ++ users')
  = match List.find (has_email email) users with
    | Some u => Some u
    | None => List.find (has_email email) users'
    end.
Proof.
  induction users as [|u users IH]; simpl; [done|]. by destruct (has_email email u).
Qed.

Lemma find_email_unique users u :
  NoDup (User.email <$> users) → u ∈ users →
  List.find (has_email (User.email u)) users = Some u.
Proof.
  induction users as [|v users IH]; simpl; [by intros _ ?%elem_of_nil|].
  intros [Hv Hnodup]%NoDup_cons [->|Hin]%elem_of_cons.
  - unfold has_email. by rewrite bool_decide_true.
  - unfold has_email at 1. case_bool_decide as Heq; [|by apply IH].
    destruct Hv. rewrite Heq. by apply list_elem_of_fmap_2.
Qed.

Lemma register_taken users groups email groupId :
  email ∈ User.email <$> users →
  register users groups email groupId = (users, false).
Proof.
  intros Hin. unfold register.
  destruct (List.find _ users) eqn:Hfind; [done|].
  by apply find_email_None in Hfind.
Qed.

Lemma register_fresh users groups email groupId :
  email ∉ User.email <$> users →
  ∃ new,
    register users groups email groupId = (users ++ [new], true)
    ∧ User.id new = Z.of_nat (length users) + 1
    ∧ User.email new = email
    ∧ User.is_active new = true
    ∧ User.group_id new = groupId.
Proof.
  intros Hfresh%find_email_None. unfold register. rewrite Hfresh.
  by eexists.
Qed.

Lemma register_cases users groups email groupId :
  (email ∈ User.email <$> users ∧ register users groups email groupId = (users, false))
  ∨ ((email ∉ User.email <$> users)
     ∧ ∃ new, register users groups email groupId = (users ++ [new], true)
              ∧ User.id new = Z.of_nat (length users) + 1
              ∧ User.email new = email
              ∧ User.is_active new = true
              ∧ User.group_id new = groupId).
Proof.
  destruct (decide (email ∈ User.email <$> users)) as [Hin|Hfresh].
  - left. split; [done|]. by apply register_taken.
  - right. split; [done|]. by apply register_fresh.
Qed.

(** X14.  [register] keeps the user table well formed: no two users share an
    e-mail address, and the user at position [i] has the identifier [i + 1],
    so identifiers are never reused. *)
Theorem register_users_wf users groups email groupId :
  users_wf users → users_wf (register users groups email groupId).1.
Proof.
  intros [Hnodup Hids].
  destruct (register_cases users groups email groupId)
    as [[_ ->]|(Hfresh & new & -> & Hid & Hemail & _)]; [done|].
  cbn [fst]. split.
  - rewrite fmap_app. apply NoDup_app. split_and!; [done| |apply NoDup_singleton].
    intros e He [->|[]%elem_of_nil]%elem_of_cons. by rewrite Hemail in He.
  - intros i u [Hu|[Hi Hu]]%lookup_app_Some; [by apply Hids|].
    apply list_lookup_singleton_Some in Hu as [Hi0 <-]. rewrite Hid. lia.
Qed.

Lemma MOCK_USERS_wf : users_wf MOCK_USERS.
Proof.
  split.
  - compute_done.
  - intros [|[|[|i]]] u Hu; simplify_eq/=; done.
Qed.

Lemma register_users_wf_witness :
  users_wf (register MOCK_USERS MOCK_GROUPS "new@example.com" (Some 3)).1.
Proof. apply register_users_wf, MOCK_USERS_wf. Defined.

(** X15.  A successful registration can log in at once, with the shared
    demo password and no other: the user has the next identifier, the given
    e-mail address and the requested group. *)
Theorem register_login users groups email groupId :
  (register users groups email groupId).2 = true →
  ∃ u,
    login (register users groups email groupId).1 email "password" = Some u
    ∧ User.id u = Z.of_nat (length users) + 1
    ∧ User.email u = email
    ∧ User.group_id u = groupId
    ∧ ∀ password, password ≠ "password" →
        login (register users groups email groupId).1 email password = None.
Proof.
  intros Hok.
  destruct (register_cases users groups email groupId)
    as [[_ Heq]|(Hfresh & new & Heq & Hid & Hemail & _ & Hgroup)];
    rewrite Heq in *; [done|].
  cbn [fst]. exists new.
  assert (List.find (has_email email) (users ++ [new]) = Some new) as Hfind.
  { rewrite find_email_app. apply find_email_None in Hfresh as ->.
    simpl. unfold has_email. by rewrite bool_decide_true. }
  unfold login. rewrite Hfind. split_and!; [done..|].
  intros password Hpw. by rewrite bool_decide_false.
Qed.

Lemma register_login_witness :
  ∃ u,
    login (register MOCK_USERS MOCK_GROUPS "new@example.com" (Some 3)).1
      "new@example.com" "password" = Some u
    ∧ User.id u = Z.of_nat (length MOCK_USERS) + 1
    ∧ User.email u = "new@example.com"
    ∧ User.group_id u = Some 3
    ∧ ∀ password, password ≠ "password" →
        login (register MOCK_USERS MOCK_GROUPS "new@example.com" (Some 3)).1
          "new@example.com" password = None.
Proof.
  apply (register_login MOCK_USERS MOCK_GROUPS "new@example.com" (Some 3)).
  reflexivity.
Defined.

(** X16.  An e-mail address registers once: after a call of [register] with
    an address, whether it succeeded or not, a second call with that address
    returns false and leaves the user table as it is. *)
Theorem register_twice users groups groups' email groupId groupId' :
  register (register users groups email groupId).1 groups' email groupId'
  = ((register users groups email groupId).1, false).
Proof.
  apply register_taken.
  destruct (register_cases users groups email groupId)
    as [[Hin ->]|(_ & new & -> & _ & Hemail & _)]; [done|].
  cbn [fst]. rewrite fmap_app, elem_of_app. right.
  rewrite <-Hemail. by left.
Qed.

(** X17.  Registration changes no existing account: an address that was
    registered before logs in as the same user, with any password, after any
    call of [register]. *)
Theorem register_keeps_logins users groups email groupId email' password :
  email' ∈ User.email <$> users →
  login (register users groups email groupId).1 email' password
  = login users email' password.
Proof.
  intros Hin.
  destruct (register_cases users groups email groupId)
    as [[_ ->]|(_ & new & -> & _)]; [done|].
  cbn [fst]. unfold login. rewrite find_email_app.
  destruct (List.find (has_email email') users) eqn:Hfind; [done|].
  by apply find_email_None in Hfind.
Qed.

Lemma register_keeps_logins_witness :
  login (register MOCK_USERS MOCK_GROUPS "new@example.com" (Some 1)).1
    "admin@example.com" "password"
  = login MOCK_USERS "admin@example.com" "password".
Proof.
  apply register_keeps_logins. apply list_elem_of_In. simpl. tauto.
Defined.

(** X18.  A registration grants the requested group without any check: the
    new user has exactly the write permissions and the accessible schemas of
    every member of that group, also for a group that [MOCK_GROUPS] does not
    list. *)
Theorem register_grants_group users groups email groupId :
  (register users groups email groupId).2 = true →
  ∃ u,
    login (register users groups email groupId).1 email "password" = Some u
    ∧ ∀ perms member,
        User.group_id member = groupId →
        (∀ schemaName,
           hasWritePermission perms u schemaName
           = hasWritePermission perms member schemaName)
        ∧ getAccessibleSchemas perms u = getAccessibleSchemas perms member.
Proof.
  intros Hok.
  destruct (register_cases users groups email groupId)
    as [[_ Heq]|(Hfresh & new & Heq & _ & Hemail & _ & Hgroup)];
    rewrite Heq in *; [done|].
  cbn [fst]. exists new. split.
  - unfold login. rewrite find_email_app.
    apply find_email_None in Hfresh as ->. simpl.
    unfold has_email. by rewrite bool_decide_true.
  - intros perms member Hmember. apply permissions_by_group. congruence.
Qed.

Lemma register_grants_group_witness :
  ∃ u,
    login (register MOCK_USERS MOCK_GROUPS "new@example.com" (Some 1)).1
      "new@example.com" "password" = Some u
    ∧ hasWritePermission MOCK_PERMISSIONS u "hr" = true.
Proof.
  destruct (register_grants_group MOCK_USERS MOCK_GROUPS "new@example.com" (Some 1)
              eq_refl) as (u & Hlogin & Hsame).
  exists u. split; [done|].
  by rewrite (proj1 (Hsame MOCK_PERMISSIONS admin_user eq_refl) "hr").
Defined.

(** X19.  In a user table without duplicate addresses, [login] returns a
    user iff the password is the shared demo password and the user is the
    registered user of that address; the password that a user chose is
    never asked for. *)
Theorem login_spec users email password u :
  NoDup (User.email <$> users) →
  login users email password = Some u
  ↔ password = "password" ∧ u ∈ users ∧ User.email u = email.
Proof.
  intros Hnodup. unfold login. split.
  - destruct (List.find _ users) as [v|] eqn:Hfind; [|done].
    case_bool_decide; [|done]. intros [= ->].
    by apply find_email_Some in Hfind as [??].
  - intros (-> & Hin & <-). rewrite find_email_unique by done.
    by rewrite bool_decide_true.
Qed.

Lemma login_spec_witness :
  login MOCK_USERS "analyst@example.com" "password" = Some analyst_user.
Proof.
  apply login_spec.
  - apply MOCK_USERS_wf.
  - split_and!; [done| |done]. apply list_elem_of_In. simpl. tauto.
Defined.
End Identity.

(** ** Regular expressions: the derivative test decides the language *)

Section Regex.
Implicit Types (r : regex) (s : string) (a : ascii) (f : ascii → bool).

Lemma append_eq_nil s1 s2 : s1 +:+ s2 = "" → s1 = "" ∧ s2 = "".
Proof. destruct s1; [by rewrite append_nil_l|by rewrite append_cons]. Qed.

Lemma append_eq_cons s1 s2 a s :
  s1 +:+ s2 = String a s →
  (s1 = "" ∧ s2 = String a s) ∨ (∃ s1', s1 = String a s1' ∧ s = s1' +:+ s2).
Proof.
  destruct s1 as [|b s1].
  - rewrite append_nil_l. by left.
  - rewrite append_cons. intros [= -> <-]. right. by exists s1.
Qed.

Lemma length_append s1 s2 :
  String.length (s1 +:+ s2) = (String.length s1 + String.length s2)%nat.
Proof.
  induction s1 as [|a s1 IH]; [done|]. rewrite append_cons. simpl. by rewrite IH.
Qed.

Lemma Matches_Seq_inv r1 r2 s :
  Matches (Seq r1 r2) s ↔ ∃ s1 s2, s = s1 +:+ s2 ∧ Matches r1 s1 ∧ Matches r2 s2.
Proof.
  split.
  - inversion 1; subst. by eexists _, _.
  - intros (s1 & s2 & -> & ? & ?). by constructor.
Qed.

Lemma Matches_Class_inv f s :
  Matches (Class f) s ↔ ∃ a, s = String a "" ∧ f a = true.
Proof.
  split.
  - inversion 1; subst. by eexists.
  - intros (a & -> & ?). by constructor.
Qed.

Lemma nullable_spec r : nullable r = true ↔ Matches r "".
Proof.
  split.
  - induction r as [| |f|r1 IH1 r2 IH2|r1 IH1 r2 IH2|r IH]; simpl; try done.
    + intros _. constructor.
    + intros [??]%andb_true_iff. apply (Matches_Seq r1 r2 "" ""); auto.
    + intros [?|?]%orb_true_iff; [apply Matches_Alt_l|apply Matches_Alt_r]; auto.
    + intros _. constructor.
  - intros H. remember "" as s eqn:Hs.
    induction H as [|f a Hf|r1 r2 s1 s2 _ IH1 _ IH2|r1 r2 s _ IH|r1 r2 s _ IH| |];
      simpl; try done.
    + apply append_eq_nil in Hs as [-> ->]. by rewrite IH1, IH2.
    + by rewrite IH.
    + rewrite IH by done. apply orb_true_r.
Qed.

Lemma Matches_Star_cons_inv r a s :
  Matches (Star r) (String a s) →
  ∃ s1 s2, s = s1 +:+ s2 ∧ Matches r (String a s1) ∧ Matches (Star r) s2.
Proof.
  intros H. remember (Star r) as r' eqn:Hr. remember (String a s) as t eqn:Ht.
  induction H as [| | | | | |r0 s1 s2 H1 _ H2 IH2]; try done.
  injection Hr as ->.
  apply append_eq_cons in Ht as [[-> ->]|(s1' & -> & ->)].
  - by apply IH2.
  - by exists s1', s2.
Qed.

Lemma deriv_spec a r s : Matches (deriv a r) s ↔ Matches r (String a s).
Proof.
  revert s. induction r as [| |f|r1 IH1 r2 IH2|r1 IH1 r2 IH2|r IH]; intros s; simpl.
  - split; inversion 1.
  - split; inversion 1.
  - destruct (f a) eqn:Hf.
    + split.
      * inversion 1; subst. by constructor.
      * inversion 1; subst. constructor.
    + split; inversion 1; subst. congruence.
  - assert (Matches (Seq (deriv a r1) r2) s
            ↔ ∃ s1 s2, s = s1 +:+ s2 ∧ Matches r1 (String a s1) ∧ Matches r2 s2)
      as Hleft.
    { rewrite Matches_Seq_inv. by setoid_rewrite IH1. }
    rewrite (Matches_Seq_inv r1 r2 (String a s)).
    destruct (nullable r1) eqn:Hnull.
    + split.
      * inversion 1 as [| | |? ? ? Hl|? ? ? Hr| |]; subst.
        -- apply Hleft in Hl as (s1 & s2 & -> & ? & ?).
           by exists (String a s1), s2.
        -- exists "", (String a s). split_and!; [done| |by apply IH2].
           by apply nullable_spec.
      * intros (s1 & s2 & Heq & H1 & H2). symmetry in Heq.
        apply append_eq_cons in Heq as [[-> ->]|(s1' & -> & ->)].
        -- apply Matches_Alt_r. by apply IH2.
        -- apply Matches_Alt_l, Hleft. by exists s1', s2.
    + rewrite Hleft. split.
      * intros (s1 & s2 & -> & ? & ?). by exists (String a s1), s2.
      * intros (s1 & s2 & Heq & H1 & H2). symmetry in Heq.
        apply append_eq_cons in Heq as [[-> ->]|(s1' & -> & ->)].
        -- apply nullable_spec in H1. congruence.
        -- by exists s1', s2.
  - split.
    + inversion 1; subst; [apply Matches_Alt_l, IH1|apply Matches_Alt_r, IH2]; done.
    + inversion 1; subst; [apply Matches_Alt_l, IH1|apply Matches_Alt_r, IH2]; done.
  - rewrite Matches_Seq_inv. split.
    + intros (s1 & s2 & -> & H1%IH & H2).
      by apply (Matches_Star_cons r (String a s1) s2).
    + intros (s1 & s2 & -> & H1 & H2)%Matches_Star_cons_inv.
      exists s1, s2. by rewrite IH.
Qed.

Lemma regex_test_spec r s : regex_test r s = true ↔ Matches r s.
Proof.
  revert r. induction s as [|a s IH]; intros r; simpl.
  - apply nullable_spec.
  - by rewrite IH, deriv_spec.
Qed.

Lemma Matches_Star_Class f s : Matches (Star (Class f)) s ↔ all_chars f s.
Proof.
  induction s as [|a s IH]; simpl.
  - split; [done|]. intros _. constructor.
  - split.
    + intros (s1 & s2 & Hs & (b & Hb & Hf)%Matches_Class_inv & H2)%Matches_Star_cons_inv.
      injection Hb as -> ->. rewrite append_nil_l in Hs. subst s2.
      split; [done|]. by apply IH.
    + intros [Hf Hs]. apply (Matches_Star_cons _ (String a "") s); [by constructor|].
      by apply IH.
Qed.

Lemma Matches_Plus_Class f s :
  Matches (Plus (Class f)) s ↔ s ≠ "" ∧ all_chars f s.
Proof.
  unfold Plus. rewrite Matches_Seq_inv. split.
  - intros (s1 & s2 & -> & (a & -> & Hf)%Matches_Class_inv & H2%Matches_Star_Class).
    rewrite append_cons, append_nil_l. by split.
  - intros [Hne Hall]. destruct s as [|a s]; [done|]. destruct Hall as [Hf Hall].
    exists (String a ""), s. split_and!; [done|by constructor|].
    by apply Matches_Star_Class.
Qed.

Lemma Matches_AtLeast2_Class f s :
  Matches (AtLeast2 (Class f)) s ↔ (2 ≤ String.length s)%nat ∧ all_chars f s.
Proof.
  unfold AtLeast2. rewrite Matches_Seq_inv. split.
  - intros (s1 & s2 & -> & (a & -> & Hf)%Matches_Class_inv & H2).
    apply Matches_Seq_inv in H2
      as (s3 & s4 & -> & (b & -> & Hg)%Matches_Class_inv & H4%Matches_Star_Class).
    rewrite !append_cons, !append_nil_l. simpl. split; [lia|done].
  - intros [Hlen Hall]. destruct s as [|a [|b s]]; simpl in Hlen; [lia..|].
    destruct Hall as (Ha & Hb & Hall).
    exists (String a ""), (String b s). split_and!; [done|by constructor|].
    apply Matches_Seq_inv. exists (String b ""), s.
    split_and!; [done|by constructor|]. by apply Matches_Star_Class.
Qed.

Lemma Matches_char (c : ascii) s :
  Matches (Class (fun a => bool_decide (a = c))) s ↔ s = String c "".
Proof.
  rewrite Matches_Class_inv. split.
  - by intros (a & -> & ->%bool_decide_eq_true).
  - intros ->. exists c. by rewrite bool_decide_true.
Qed.

(** The language of [EMAIL_REGEX]. *)
Lemma Matches_EMAIL_REGEX s : Matches EMAIL_REGEX s ↔ email_shape s.
Proof.
  unfold EMAIL_REGEX, email_shape. rewrite Matches_Seq_inv. split.
  - intros (local & s1 & -> & [Hl1 Hl2]%Matches_Plus_Class & H1).
    apply Matches_Seq_inv in H1 as (at_ & s2 & -> & ->%Matches_char & H2).
    apply Matches_Seq_inv in H2
      as (domain & s3 & -> & [Hd1 Hd2]%Matches_Plus_Class & H3).
    apply Matches_Seq_inv in H3
      as (dot & tld & -> & ->%Matches_char & [Ht1 Ht2]%Matches_AtLeast2_Class).
    by exists local, domain, tld.
  - intros (local & domain & tld & -> & Hl1 & Hl2 & Hd1 & Hd2 & Ht1 & Ht2).
    exists local, ("@" +:+ domain +:+ "." +:+ tld).
    split_and!; [done|by apply Matches_Plus_Class|].
    apply Matches_Seq_inv. exists "@", (domain +:+ "." +:+ tld).
    split_and!; [done|by apply Matches_char|].
    apply Matches_Seq_inv. exists domain, ("." +:+ tld).
    split_and!; [done|by apply Matches_Plus_Class|].
    apply Matches_Seq_inv. exists ".", tld.
    split_and!; [done|by apply Matches_char|by apply Matches_AtLeast2_Class].
Qed.
End Regex.

(** ** The e-mail validator *)

(** X20.  [validateEmail] accepts exactly the strings of the shape local
    part, [@], domain, dot, top-level domain: the local part is not empty
    and holds letters, digits and [._%+-]; the domain is not empty and holds
    letters, digits, dots and hyphens; the top-level domain is two letters
    or more. *)
Theorem validateEmail_spec (email : string) :
  Validation.isValid (validateEmail email) = true ↔ email_shape email.
Proof.
  rewrite <-Matches_EMAIL_REGEX, <-regex_test_spec. unfold validateEmail.
  destruct email as [|a email]; [done|]. cbn [truthy_string negb].
  by destruct (regex_test EMAIL_REGEX (String a email)).
Qed.

Example validateEmail_examples :
  validateEmail "" = Validation.mk false (Some "Email cannot be empty.")
  ∧ validateEmail "admin@example.com" = Validation.mk true None
  ∧ validateEmail "first.last+tag@mail.example.org" = Validation.mk true None
  ∧ validateEmail "a@b.c" = Validation.mk false (Some "Invalid email format.")
  ∧ validateEmail "a@@b.com" = Validation.mk false (Some "Invalid email format.")
  ∧ validateEmail "a b@c.com" = Validation.mk false (Some "Invalid email format.")
  ∧ validateEmail "a@b.c0m" = Validation.mk false (Some "Invalid email format.")
  ∧ validateEmail "a@.co" = Validation.mk false (Some "Invalid email format.")
  ∧ validateEmail "%@-.co" = Validation.mk true None
  ∧ validateEmail "a@b..co" = Validation.mk true None.
Proof. split_and!; vm_compute; reflexivity. Qed.

Section CharClasses.
Implicit Types (f g : ascii → bool) (s : string) (c : ascii).

Lemma all_chars_append f s1 s2 :
  all_chars f (s1 +:+ s2) ↔ all_chars f s1 ∧ all_chars f s2.
Proof.
  induction s1 as [|a s1 IH]; [rewrite append_nil_l; simpl; tauto|].
  rewrite append_cons. simpl. rewrite IH. tauto.
Qed.

Lemma all_chars_impl f g s :
  (∀ c, f c = true → g c = true) → all_chars f s → all_chars g s.
Proof. intros Hfg. induction s as [|a s IH]; simpl; [done|]. intros [??]. auto. Qed.

Lemma count_char_outside f s c :
  all_chars f s → f c = false → count_char c s = 0%nat.
Proof.
  intros Hall Hc. induction s as [|a s IH]; simpl; [done|].
  destruct Hall as [Ha Hall]. rewrite IH by done.
  rewrite bool_decide_false; [done|]. intros ->. congruence.
Qed.

Lemma test_class_spec f s : test_class f s = true ↔ some_char f s.
Proof.
  unfold some_char. induction s as [|a s IH]; simpl.
  - split; [done|]. by intros ([|??] & b & post & ? & _).
  - rewrite orb_true_iff, IH. split.
    + intros [Hf|(pre & b & post & -> & Hf)].
      * by exists "", a, s.
      * by exists (String a pre), b, post.
    + intros ([|a' pre] & b & post & Heq & Hf).
      * rewrite append_nil_l in Heq. injection Heq as -> ->. by left.
      * rewrite append_cons in Heq. injection Heq as -> ->. right.
        by exists pre, b, post.
Qed.

Lemma some_char_append f s pre post :
  some_char f s → some_char f (pre +:+ s +:+ post).
Proof.
  intros (pre' & a & post' & -> & Hf).
  exists (pre +:+ pre'), a, (post' +:+ post). split; [|done].
  by rewrite !append_assoc, append_cons.
Qed.

Lemma email_domain_char_local c : email_domain_char c = true → email_local_char c = true.
Proof.
  unfold email_domain_char, email_local_char.
  destruct (is_alnum c), (bool_decide (c = "."%char)), (bool_decide (c = "-"%char));
    simpl; try done; intros _; by rewrite ?orb_true_r.
Qed.

Lemma is_letter_local c : is_letter c = true → email_local_char c = true.
Proof. unfold email_local_char, is_alnum. by intros ->. Qed.
End CharClasses.

(** X21.  An address that [validateEmail] accepts holds exactly one [@], is
    made of letters, digits and the characters [._%+-@] only (so it holds no
    space and no character outside ASCII), and is six characters or more. *)
Theorem validateEmail_accepted (email : string) :
  Validation.isValid (validateEmail email) = true →
  count_char "@" email = 1%nat
  ∧ all_chars (fun c => email_local_char c || bool_decide (c = "@"%char)) email
  ∧ (6 ≤ String.length email)%nat.
Proof.
  intros Hvalid.
  assert (regex_test EMAIL_REGEX email = true) as Htest.
  { unfold validateEmail in Hvalid. destruct email; [done|].
    cbn [truthy_string negb] in Hvalid.
    by destruct (regex_test EMAIL_REGEX _). }
  apply regex_test_spec, Matches_EMAIL_REGEX in Htest
    as (local & domain & tld & -> & Hl1 & Hl2 & Hd1 & Hd2 & Ht1 & Ht2).
  apply (all_chars_impl _ _ _ email_domain_char_local) in Hd2.
  apply (all_chars_impl _ _ _ is_letter_local) in Ht2.
  split_and!.
  - rewrite !count_char_append.
    rewrite (count_char_outside email_local_char local),
      (count_char_outside email_local_char domain),
      (count_char_outside email_local_char tld) by done.
    done.
  - rewrite !all_chars_append.
    assert (∀ s, all_chars email_local_char s →
                 all_chars (fun c => email_local_char c || bool_decide (c = "@"%char)) s)
      as Himp.
    { intros s. apply all_chars_impl. by intros c ->. }
    split_and!; auto; by split.
  - rewrite !length_append. destruct local, domain; simpl in *; try done. lia.
Qed.

Lemma validateEmail_accepted_witness :
  count_char "@" "analyst@example.com" = 1%nat
  ∧ all_chars (fun c => email_local_char c || bool_decide (c = "@"%char))
      "analyst@example.com"
  ∧ (6 ≤ String.length "analyst@example.com")%nat.
Proof. apply (validateEmail_accepted "analyst@example.com"). reflexivity. Defined.

(** ** The password checks *)

Lemma strength_score_range (password : string) : 0 ≤ strength_score password ≤ 4.
Proof.
  unfold strength_score.
  destruct (8 <=? _), (test_class is_upper_letter _), (test_class is_digit _),
    (test_class _ password); lia.
Qed.

Lemma strength_score_four (password : string) :
  strength_score password = 4
  ↔ (8 ≤ String.length password)%nat
    ∧ some_char is_upper_letter password
    ∧ some_char is_digit password
    ∧ some_char (fun c => negb (is_alnum c)) password.
Proof.
  rewrite <-!test_class_spec. unfold strength_score.
  destruct (8 <=? _) eqn:Hlen, (test_class is_upper_letter _),
    (test_class is_digit _), (test_class _ password);
    split; try lia; try (by intros (? & ? & ? & ?)).
Qed.

Lemma getPasswordStrength_score (password : string) :
  Strength.score (getPasswordStrength password)
  = if truthy_string password then strength_score password else 0.
Proof.
  unfold getPasswordStrength. destruct (truthy_string password); [|done].
  cbn [negb]. by repeat case_match.
Qed.

(** X22.  The score of [getPasswordStrength] is between 0 and 4, so the
    strength bar is between 20% and 100% wide.  The label is [Weak] below 2,
    [Medium] for 2 and 3 and [Strong] for 4, and the score is 4 iff the
    password has 8 characters or more, an upper-case letter, a digit and a
    character that is neither letter nor digit. *)
Theorem getPasswordStrength_spec (password : string) :
  let s := getPasswordStrength password in
  0 ≤ Strength.score s ≤ 4
  ∧ (Strength.label s = "Weak" ↔ Strength.score s < 2)
  ∧ (Strength.label s = "Medium" ↔ 2 ≤ Strength.score s < 4)
  ∧ (Strength.label s = "Strong" ↔ Strength.score s = 4)
  ∧ (Strength.score s = 4
     ↔ (8 ≤ String.length password)%nat
       ∧ some_char is_upper_letter password
       ∧ some_char is_digit password
       ∧ some_char (fun c => negb (is_alnum c)) password).
Proof.
  intros s. pose proof (strength_score_range password) as Hrange.
  pose proof (strength_score_four password) as Hfour.
  unfold s, getPasswordStrength.
  destruct password as [|a password].
  - cbn [truthy_string negb Strength.score Strength.label].
    split_and!; try done; try lia.
    split; [done|]. intros (Hlen & _). simpl in Hlen. lia.
  - cbn [truthy_string negb].
    destruct (strength_score (String a password) <? 2) eqn:H2;
      [|destruct (strength_score (String a password) <? 4) eqn:H4];
      cbn [Strength.score Strength.label];
      (split_and!; [lia|lia|split; (done || lia)..|done]).
Qed.

(** X23.  Adding characters to a password, in front or behind, never lowers
    its score. *)
Theorem getPasswordStrength_mono (pre password post : string) :
  Strength.score (getPasswordStrength password)
  ≤ Strength.score (getPasswordStrength (pre +:+ password +:+ post)).
Proof.
  rewrite !getPasswordStrength_score.
  pose proof (strength_score_range (pre +:+ password +:+ post)).
  destruct password as [|a password]; cbn [truthy_string].
  { destruct (truthy_string _); lia. }
  assert (truthy_string (pre +:+ String a password +:+ post) = true) as ->.
  { apply truthy_string_true. intros Heq.
    apply append_eq_nil in Heq as [_ Heq]. by rewrite append_cons in Heq. }
  unfold strength_score.
  assert (∀ f, test_class f (String a password) = true →
               test_class f (pre +:+ String a password +:+ post) = true) as Hclass.
  { intros f. rewrite !test_class_spec. apply some_char_append. }
  assert (∀ f, (if test_class f (String a password) then 1 else 0)
               ≤ (if test_class f (pre +:+ String a password +:+ post) then 1 else 0))
    as Hmono.
  { intros f. destruct (test_class f (String a password)) eqn:Hf.
    - rewrite (Hclass f Hf). done.
    - case_match; lia. }
  pose proof (Hmono is_upper_letter). pose proof (Hmono is_digit).
  pose proof (Hmono (fun c => negb (is_alnum c))).
  assert ((if 8 <=? Z.of_nat (String.length (String a password)) then 1 else 0)
          ≤ (if 8 <=? Z.of_nat (String.length (pre +:+ String a password +:+ post))
             then 1 else 0)).
  { rewrite !length_append.
    destruct (Z.leb_spec 8 (Z.of_nat (String.length (String a password))));
      destruct (Z.leb_spec 8 (Z.of_nat (String.length pre
                   + (String.length (String a password) + String.length post))));
      lia. }
  lia.
Qed.

(** X24.  [validatePassword] accepts a password iff it has 8 characters or
    more; an accepted password has a score of 1 at least. *)
Theorem validatePassword_spec (password : string) :
  (Validation.isValid (validatePassword password) = true
   ↔ (8 ≤ String.length password)%nat)
  ∧ (Validation.isValid (validatePassword password) = true →
     1 ≤ Strength.score (getPasswordStrength password)).
Proof.
  assert (Validation.isValid (validatePassword password) = true
          ↔ (8 ≤ String.length password)%nat) as Hiff.
  { unfold validatePassword. destruct password as [|a password].
    - simpl. split; [done|lia].
    - cbn [truthy_string negb].
      destruct (Z.ltb_spec (Z.of_nat (String.length (String a password))) 8);
        cbn [Validation.isValid]; split; (done || lia). }
  split; [done|]. intros Hlen%Hiff.
  rewrite getPasswordStrength_score.
  destruct password as [|a password]; [simpl in Hlen; lia|].
  cbn [truthy_string]. unfold strength_score.
  assert ((8 <=? Z.of_nat (String.length (String a password))) = true) as -> by lia.
  repeat case_match; lia.
Qed.

Lemma validatePassword_spec_witness :
  1 ≤ Strength.score (getPasswordStrength "password").
Proof. apply (validatePassword_spec "password"). reflexivity. Defined.

(** ** Further properties of the filter validator *)

Lemma validateWhereClause_invalid (clause : string) :
  Validation.isValid (validateWhereClause clause) = false
  ↔ clause ≠ ""
    ∧ ((∃ pat, pat ∈ SQL_COMMENT_PATTERNS ∧ contains clause pat)
       ∨ (∃ kw, kw ∈ FORBIDDEN_SQL_KEYWORDS ∧ contains_word clause kw)).
Proof.
  rewrite <-find_comment_pattern, <-find_forbidden_keyword.
  unfold validateWhereClause. destruct clause as [|a clause]; [by split; [|intros []]|].
  cbn [truthy_string negb].
  destruct (List.find _ SQL_COMMENT_PATTERNS) as [pat|].
  - split; [|done]. intros _. split; [done|]. left. by eexists.
  - destruct (List.find _ FORBIDDEN_SQL_KEYWORDS) as [kw|].
    + split; [|done]. intros _. split; [done|]. right. by eexists.
    + split; [done|]. by intros [_ [[? [=]]|[? [=]]]].
Qed.

Lemma find_cons_if {A} (f : A → bool) (x : A) (l : list A) :
  List.find f (x :: l) = if f x then Some x else List.find f l.
Proof. done. Qed.

(** X25.  The message of [validateWhereClause] tells what was found first.
    A comment pattern wins over a keyword, and among the patterns [;] wins
    over [--], which wins over [/*]; the keyword message is given only when
    no pattern occurs.  There is a message iff the text is rejected. *)
Theorem validateWhereClause_error (clause : string) :
  let v := validateWhereClause clause in
  let comment pat :=
    Some ("SQL Injection attempt detected: comment pattern '" +:+ pat +:+ "'") in
  (Validation.isValid v = true ↔ Validation.error v = None)
  ∧ (contains clause ";" → Validation.error v = comment ";")
  ∧ (¬ contains clause ";" → contains clause "--" →
     Validation.error v = comment "--")
  ∧ (¬ contains clause ";" → ¬ contains clause "--" → contains clause "/*" →
     Validation.error v = comment "/*")
  ∧ (¬ contains clause ";" → ¬ contains clause "--" → ¬ contains clause "/*" →
     (∃ kw, kw ∈ FORBIDDEN_SQL_KEYWORDS ∧ contains_word clause kw) →
     Validation.error v = Some "Forbidden SQL keyword detected.").
Proof.
  intros v comment. unfold v, validateWhereClause.
  destruct clause as [|a clause].
  - cbn [truthy_string negb Validation.isValid Validation.error].
    split_and!; [done|by intros ?%contains_empty|by intros _ ?%contains_empty
                |by intros _ _ ?%contains_empty|].
    intros _ _ _ Hkw%find_forbidden_keyword. by destruct Hkw.
  - cbn [truthy_string negb]. set (text := String a clause).
    rewrite <-!(includes_spec text). unfold SQL_COMMENT_PATTERNS.
    rewrite !find_cons_if. cbn [List.find].
    destruct (includes text ";"); [by split_and!|].
    destruct (includes text "--"); [by split_and!|].
    destruct (includes text "/*"); [by split_and!|].
    pose proof (find_forbidden_keyword text) as Hfind.
    destruct (List.find _ FORBIDDEN_SQL_KEYWORDS) as [kw|].
    + by split_and!.
    + split_and!; try done. intros _ _ _ Hkw%Hfind. by destruct Hkw.
Qed.

Lemma validateWhereClause_error_witness :
  Validation.error (validateWhereClause "drop table t; --")
  = Some "SQL Injection attempt detected: comment pattern ';'".
Proof.
  apply (validateWhereClause_error "drop table t; --").
  exists "drop table t", " --". reflexivity.
Defined.

Section SingleToken.
Implicit Types (s pre post : string) (f : ascii → bool).

Lemma all_chars_last f pre :
  all_chars f pre → pre ≠ "" → ∃ c, last_char pre = Some c ∧ f c = true.
Proof.
  induction pre as [|a pre IH]; [done|]. intros [Ha Hpre] _.
  rewrite last_char_cons. destruct (decide (pre = "")) as [->|Hne].
  - by exists a.
  - destruct (IH Hpre Hne) as (c & -> & Hc). by exists c.
Qed.

Lemma all_chars_first f post :
  all_chars f post → post ≠ "" → ∃ c, first_char post = Some c ∧ f c = true.
Proof. destruct post as [|a post]; [done|]. intros [Ha _] _. by exists a. Qed.

Lemma word_only_no_comment s pat :
  all_chars is_word_char s → pat ∈ SQL_COMMENT_PATTERNS → ¬ contains s pat.
Proof.
  intros Hall Hpat (pre & post & ->).
  apply all_chars_append in Hall as [_ Hall].
  apply all_chars_append in Hall as [Hall _].
  apply list_elem_of_In in Hpat.
  destruct Hpat as [<-|[<-|[<-|[]]]]; by destruct Hall.
Qed.

Lemma word_only_contains_word s kw :
  all_chars is_word_char s → contains_word s kw → toUpperCase s = toUpperCase kw.
Proof.
  intros Hall (pre & mid & post & -> & Hup & Hpre & Hpost).
  apply all_chars_append in Hall as [Hallpre Hall].
  apply all_chars_append in Hall as [_ Hallpost].
  assert (pre = "") as ->.
  { destruct (decide (pre = "")) as [|Hne]; [done|].
    destruct (all_chars_last _ _ Hallpre Hne) as (c & Hc & Hw).
    rewrite Hc in Hpre. simpl in Hpre. congruence. }
  assert (post = "") as ->.
  { destruct (decide (post = "")) as [|Hne]; [done|].
    destruct (all_chars_first _ _ Hallpost Hne) as (c & Hc & Hw).
    rewrite Hc in Hpost. simpl in Hpost. congruence. }
  by rewrite append_nil_l, append_empty_r.
Qed.
End SingleToken.

(** X26.  A text of word characters only (letters, digits, underscores) is
    rejected iff it is one of the nine keywords, in any letter case: a
    keyword inside a longer name, as in [dropdown] or [drop_table], is not
    found. *)
Theorem validateWhereClause_single_token (s : string) :
  all_chars is_word_char s →
  Validation.isValid (validateWhereClause s) = false
  ↔ toUpperCase s ∈ FORBIDDEN_SQL_KEYWORDS.
Proof.
  intros Hall. rewrite validateWhereClause_invalid. split.
  - intros [_ [(pat & Hpat & Hin)|(kw & Hkw & Hin)]].
    + by destruct (word_only_no_comment s pat).
    + rewrite (word_only_contains_word s kw) by done.
      apply list_elem_of_In in Hkw. apply list_elem_of_In. simpl in *.
      repeat (destruct Hkw as [<-|Hkw]; [tauto|]). done.
  - intros Hkw. split.
    + intros ->. apply list_elem_of_In in Hkw. simpl in Hkw.
      repeat (destruct Hkw as [?|Hkw]; [done|]). done.
    + right. exists (toUpperCase s). split; [done|].
      exists "", s, "". rewrite append_nil_l, append_empty_r.
      split_and!; [done| |done..].
      apply list_elem_of_In in Hkw. simpl in Hkw.
      repeat (destruct Hkw as [<-|Hkw]; [done|]). done.
Qed.

Lemma validateWhereClause_single_token_witness :
  Validation.isValid (validateWhereClause "Truncate") = false
  ↔ toUpperCase "Truncate" ∈ FORBIDDEN_SQL_KEYWORDS.
Proof.
  apply (validateWhereClause_single_token "Truncate"). repeat split.
Defined.

Section LetterCase.
Implicit Types (s p : string) (a b c : ascii) (atoms : list re_atom)
  (prev : option ascii).

Lemma toUpperCase_char_idemp a :
  toUpperCase_char (toUpperCase_char a) = toUpperCase_char a.
Proof. by destruct a as [[] [] [] [] [] [] [] []]. Qed.

Lemma toUpperCase_idemp s : toUpperCase (toUpperCase s) = toUpperCase s.
Proof.
  induction s as [|a s IH]; [done|]. simpl. by rewrite toUpperCase_char_idemp, IH.
Qed.

(** A character that is no letter is the upper-case form of itself only. *)
Lemma toUpperCase_char_no_letter a b :
  is_letter b = false → toUpperCase_char a = b ↔ a = b.
Proof.
  intros Hb.
  destruct a as [[] [] [] [] [] [] [] []];
    (split; intros <-; try done; by vm_compute in Hb).
Qed.

Lemma startsWith_upper s p :
  all_chars (fun c => negb (is_letter c)) p →
  startsWith (toUpperCase s) p = startsWith s p.
Proof.
  revert s. induction p as [|b p IH]; intros s Hp; [done|].
  destruct Hp as [Hb%negb_true_iff Hp]. destruct s as [|a s]; [done|]. simpl.
  rewrite IH by done. f_equal. apply bool_decide_ext.
  by apply toUpperCase_char_no_letter.
Qed.

Lemma includes_upper s p :
  all_chars (fun c => negb (is_letter c)) p →
  includes (toUpperCase s) p = includes s p.
Proof.
  intros Hp. induction s as [|a s IH].
  - done.
  - cbn [toUpperCase includes]. rewrite <-IH. f_equal.
    by apply (startsWith_upper (String a s)).
Qed.

Lemma match_atoms_upper atoms prev s :
  match_atoms true atoms (toUpperCase_char <$> prev) (toUpperCase s)
  = match_atoms true atoms prev s.
Proof.
  revert prev s. induction atoms as [|[|c] atoms IH]; intros prev s; [done| |].
  - cbn [match_atoms]. by rewrite IH, is_word_fmap_upper, first_char_upper,
      is_word_fmap_upper.
  - destruct s as [|a s]; [done|]. cbn [toUpperCase match_atoms].
    rewrite <-(IH (Some a) s). f_equal.
    unfold char_matches. by rewrite toUpperCase_char_idemp.
Qed.

Lemma search_atoms_upper atoms prev s :
  search_atoms true atoms (toUpperCase_char <$> prev) (toUpperCase s)
  = search_atoms true atoms prev s.
Proof.
  revert prev. induction s as [|a s IH]; intros prev.
  - pose proof (match_atoms_upper atoms prev "") as Hm.
    cbn [toUpperCase search_atoms] in *. by rewrite Hm.
  - pose proof (match_atoms_upper atoms prev (String a s)) as Hm.
    cbn [toUpperCase search_atoms] in *. rewrite Hm. f_equal.
    apply (IH (Some a)).
Qed.

Lemma validateWhereClause_upper s :
  validateWhereClause (toUpperCase s) = validateWhereClause s.
Proof.
  unfold validateWhereClause.
  assert (truthy_string (toUpperCase s) = truthy_string s) as -> by by destruct s.
  unfold SQL_COMMENT_PATTERNS, FORBIDDEN_SQL_KEYWORDS, RegExp_test.
  rewrite !find_cons_if.
  rewrite !includes_upper by (repeat split).
  by rewrite !(search_atoms_upper _ None s).
Qed.
End LetterCase.

(** X27.  The verdict of [validateWhereClause] does not depend on letter
    case: two texts that differ in the case of ASCII letters only get the
    same result, message included. *)
Theorem validateWhereClause_case (s s' : string) :
  toUpperCase s = toUpperCase s' →
  validateWhereClause s = validateWhereClause s'.
Proof.
  intros Heq.
  by rewrite <-(validateWhereClause_upper s), Heq, validateWhereClause_upper.
Qed.

Lemma validateWhereClause_case_witness :
  validateWhereClause "Select * From t Where x = 'Drop'"
  = validateWhereClause "SELECT * FROM T WHERE X = 'DROP'".
Proof. apply validateWhereClause_case. reflexivity. Defined.

(** ** The data browser component *)

Section DataBrowserInvariant.
Context {value : Type}.
Implicit Types (st : DataBrowser.state value) (e : DataBrowser.event value)
  (events : list (DataBrowser.event value)).

Lemma DataBrowser_step_ok st e : DataBrowser_ok st → DataBrowser_ok (DataBrowser_step st e).
Proof.
  intros [Hpage Hvalid]. unfold DataBrowser_ok.
  destruct e; cbn [DataBrowser_step]; try done.
  - unfold handleApplyFilter.
    destruct (Validation.isValid (validateWhereClause (DataBrowser.filter st)))
      eqn:Hfilter; done.
  - unfold pagination_shown. repeat case_match; done.
  - unfold pagination_shown. repeat case_match; try done.
    cbn [set_page DataBrowser.page DataBrowser.appliedFilter]. split; [lia|done].
  - unfold pagination_shown. repeat case_match; try done.
    cbn [set_page DataBrowser.page DataBrowser.appliedFilter]. split; [lia|done].
  - unfold pagination_shown. repeat case_match; try done.
    cbn [set_page DataBrowser.page DataBrowser.appliedFilter]. split; [lia|done].
Qed.

Lemma DataBrowser_fold_ok events st :
  DataBrowser_ok st → DataBrowser_ok (fold_left DataBrowser_step events st).
Proof.
  revert st. induction events as [|e events IH]; intros st Hst; [done|].
  simpl. by apply IH, DataBrowser_step_ok.
Qed.
End DataBrowserInvariant.

(** X28.  Whatever the user does in the data browser (typing, applying and
    clearing filters, changing tables, paging with the enabled buttons), the
    page number stays 1 or more and the applied filter is a text that
    [validateWhereClause] accepts.  So every query that the component sends
    asks for the plain window of rows of its page. *)
Theorem DataBrowser_invariant {value : Type} `{!Builtins value}
    (events : list (DataBrowser.event value)) (tables : store value)
    (schemaName tableName : string) :
  let st := DataBrowser_run events in
  1 ≤ DataBrowser.page st
  ∧ Validation.isValid (validateWhereClause (DataBrowser.appliedFilter st)) = true
  ∧ QueryResult.data (loadData_query tables schemaName tableName st)
    = take 50 (drop (Z.to_nat ((DataBrowser.page st - 1) * 50))
                 (filterRows (Some (DataBrowser.appliedFilter st))
                    (table_rows tables (fullKey_of schemaName tableName)))).
Proof.
  intros st.
  assert (DataBrowser_ok st) as [Hpage Hvalid].
  { apply DataBrowser_fold_ok. by split. }
  split_and!; [done..|]. by apply getData_window.
Qed.

Example DataBrowser_rejected_filter :
  let st := DataBrowser_run (value := scalar)
              [DataBrowser.ChangeFilter "john";
                             DataBrowser.ApplyFilter;
                             DataBrowser.ChangeFilter "x; drop table t";
                             DataBrowser.ApplyFilter] in
  DataBrowser.appliedFilter st = "john"
  ∧ DataBrowser.error st
    = Some "SQL Injection attempt detected: comment pattern ';'".
Proof. split; reflexivity. Qed.

Lemma getData_row_count_formula {value : Type} `{!Builtins value}
    (tables : store value) (schemaName tableName : string)
    (whereClause : option string) (page : Z) :
  1 ≤ page →
  QueryResult.row_count (getData tables schemaName tableName page whereClause)
  = Z.max 0 (Z.min 50
      (QueryResult.total_rows (getData tables schemaName tableName page whereClause)
       - 50 * (page - 1))).
Proof.
  intros Hpage.
  change (QueryResult.row_count (getData tables schemaName tableName page whereClause))
    with (Z.of_nat (length
            (QueryResult.data (getData tables schemaName tableName page whereClause)))).
  rewrite getData_window, getData_total_rows by done.
  rewrite length_take, length_drop. lia.
Qed.

(** X29.  On a page from 1 to [total_pages], the line "Showing [from] to
    [to] of [total] entries" names exactly the rows of the page: the range
    is not empty, it ends within the total, and it is as long as
    [row_count]. *)
Theorem showing_range {value : Type} `{!Builtins value}
    (tables : store value) (schemaName tableName : string)
    (whereClause : option string) (page : Z) :
  let r := getData tables schemaName tableName page whereClause in
  1 ≤ page ≤ QueryResult.total_pages r →
  showing_from page ≤ showing_to page r
  ∧ showing_to page r ≤ QueryResult.total_rows r
  ∧ showing_to page r - showing_from page + 1 = QueryResult.row_count r.
Proof.
  intros r [Hpage Hlast]. unfold r in *.
  rewrite getData_row_count_formula by done.
  rewrite getData_total_pages in Hlast. rewrite getData_total_rows.
  pose proof (Math_ceil_div_PAGE_SIZE
    (Z.of_nat (length (filterRows whereClause
                         (table_rows tables (fullKey_of schemaName tableName)))))).
  unfold showing_from, showing_to. rewrite getData_total_rows.
  unfold PAGE_SIZE in *. lia.
Qed.

Lemma showing_range_witness :
  showing_from 3 = 101
  ∧ showing_to 3 (getData audit_tables "public" "users_audit" 3 None) = 120
  ∧ showing_to 3 (getData audit_tables "public" "users_audit" 3 None)
    - showing_from 3 + 1
    = QueryResult.row_count (getData audit_tables "public" "users_audit" 3 None).
Proof.
  split; [reflexivity|]. split; [reflexivity|].
  apply (showing_range audit_tables "public" "users_audit" None 3).
  split; [lia|]. vm_compute. discriminate.
Defined.

(** ** The registration form *)

Lemma validateEmail_shape (email : string) :
  Validation.isValid (validateEmail email) = true → email_shape email.
Proof.
  rewrite <-Matches_EMAIL_REGEX, <-regex_test_spec. unfold validateEmail.
  destruct email as [|a email]; [done|]. cbn [truthy_string negb].
  by destruct (regex_test EMAIL_REGEX (String a email)).
Qed.

Lemma validatePassword_length (password : string) :
  Validation.isValid (validatePassword password) = true →
  (8 ≤ String.length password)%nat.
Proof.
  unfold validatePassword. destruct password as [|a password]; [done|].
  cbn [truthy_string negb].
  destruct (Z.ltb_spec (Z.of_nat (String.length (String a password))) 8);
    cbn [Validation.isValid]; [done|lia].
Qed.

(** X30.  A submission of the registration form changes the user table only
    when it succeeds, and it succeeds only for a well-shaped address that is
    not registered yet, with a password of 8 characters or more that equals
    its confirmation.  The new user has the selected group, and the password
    from the form is not kept: the user logs in with the shared demo
    password, and with the chosen password only if it is that one. *)
Theorem RegisterForm_submit_spec (users : list User.t) (groups : list Group.t)
    (email password confirm : string) (groupId : Z) :
  let result := RegisterForm_submit users groups email password confirm groupId in
  (result.2 = None →
   email_shape email
   ∧ (8 ≤ String.length password)%nat
   ∧ password = confirm
   ∧ (email ∉ User.email <$> users)
   ∧ ∃ u, result.1 = users ++ [u]
          ∧ User.email u = email
          ∧ User.group_id u = Some groupId
          ∧ login result.1 email "password" = Some u
          ∧ (password ≠ "password" → login result.1 email password = None))
  ∧ (result.2 ≠ None → result.1 = users).
Proof.
  intros result. unfold result, RegisterForm_submit.
  destruct (Validation.isValid (validateEmail email)) eqn:Hemail; cbn [negb].
  2:{ split; [|done]. cbn [snd]. unfold validateEmail in *.
      destruct (negb (truthy_string email)); [done|].
      by destruct (negb (regex_test EMAIL_REGEX email)). }
  destruct (Validation.isValid (validatePassword password)) eqn:Hpw; cbn [negb].
  2:{ split; [|done]. cbn [snd]. unfold validatePassword in *.
      destruct (negb (truthy_string password)); [done|].
      by destruct (_ <? 8). }
  case_bool_decide as Hconfirm; cbn [negb]; [|by split].
  destruct (register_cases users groups email (Some groupId))
    as [[_ ->]|(Hfresh & new & -> & _ & Hnew & _ & Hgroup)]; [by split|].
  cbn [fst snd]. split; [|done]. intros _.
  split_and!; [by apply validateEmail_shape|by apply validatePassword_length|done..|].
  exists new.
  assert (List.find (has_email email) (users ++ [new]) = Some new) as Hfind.
  { rewrite find_email_app. apply find_email_None in Hfresh as ->.
    simpl. unfold has_email. by rewrite bool_decide_true. }
  unfold login. rewrite Hfind. split_and!; [done..|].
  intros Hne. by rewrite bool_decide_false.
Qed.

Lemma RegisterForm_submit_spec_witness :
  login (RegisterForm_submit MOCK_USERS MOCK_GROUPS "new@example.com"
           "Secret-123" "Secret-123" 3).1 "new@example.com" "Secret-123" = None.
Proof.
  destruct (RegisterForm_submit_spec MOCK_USERS MOCK_GROUPS "new@example.com"
              "Secret-123" "Secret-123" 3) as [Hok _].
  destruct (Hok eq_refl) as (_ & _ & _ & _ & u & _ & _ & _ & _ & Hother).
  apply Hother. discriminate.
Defined.

(** ** The table list and the stored tables *)

(** X10.  Where neither the schema name nor a table name stored under it
    holds a dot, [getTables] lists exactly the tables that the store holds
    for the schema: a name is in the list iff ["schema.name"] is a key of
    the store, so every listed table can be queried and no stored table is
    missing. *)
Theorem getTables_lists_stored {value : Type}
    (tables : store value) (schemaName : string) :
  free_of "." schemaName →
  (∀ rest, schemaName +:+ "." +:+ rest ∈ Object_keys tables → free_of "." rest) →
  ∀ tableName,
    Some tableName ∈ getTables tables schemaName
    ↔ fullKey_of schemaName tableName ∈ Object_keys tables.
Proof.
  intros Hschema Hrest tableName.
  rewrite getTables_dot_free by done.
  rewrite list_elem_of_fmap. unfold fullKey_of. split.
  - intros (name & [= <-] & Hname).
    apply list_elem_of_omap in Hname as (key & Hkey & Hstrip).
    apply strip_prefix_Some in Hstrip. rewrite append_assoc in Hstrip.
    by subst key.
  - intros Hkey. exists tableName. split; [done|].
    apply list_elem_of_omap. exists (schemaName +:+ "." +:+ tableName).
    split; [done|]. apply strip_prefix_Some. by rewrite append_assoc.
Qed.

Lemma getTables_lists_stored_witness :
  Some "employees" ∈ getTables sample_tables "hr"
  ↔ fullKey_of "hr" "employees" ∈ Object_keys sample_tables.
Proof.
  apply (getTables_lists_stored sample_tables "hr").
  - repeat split; discriminate.
  - intros rest Hin. apply list_elem_of_In in Hin.
    destruct Hin as [Heq|[Heq|[]]].
    + apply (f_equal (fun s => startsWith s "hr.")) in Heq.
      assert (startsWith ("hr" +:+ "." +:+ rest) "hr." = true) as Htrue.
      { apply startsWith_spec. exists rest. by rewrite <-append_assoc. }
      rewrite Htrue in Heq. discriminate.
    + change ("hr.employees") with ("hr" +:+ "." +:+ "employees") in Heq.
      apply (inj (String.app "hr")), (inj (String.app ".")) in Heq.
      subst rest. repeat split; discriminate.
Defined.
